(** * Scene mapping and diagram partitioning: a shallow embedding

    The definitions below embed the pure helpers of
    [Server/src/services/tools/orchestrate_mapping.py] and
    [Server/src/services/resources/scene_outline.py]
    ([_build_tree], [_sort_tree], [_count_subtree],
    [_build_grouping_lenses], [_suggest_diagram_counts], [_build_diagrams],
    [_build_hierarchy_rows]) and the pagination loop of [orchestrate_mapping].

    Conventions.
    - A Python [str] is a Rocq [string], read as its UTF-8 bytes. The only
      characters the code looks for are ["/"] and ["."], single bytes that never
      occur inside a multi-byte sequence, and byte-wise lexicographic order on
      UTF-8 coincides with Python's code-point order.
    - A Python [int] is a [Z]; counters that only ever grow from 0 are [nat].
    - [d.get(k)] on a JSON object is an [option]; [x or default] and
      [if x] follow Python truthiness ([None] and the empty string are falsy).
    - Dictionaries that are only looked up or sorted afterwards are [gmap]s;
      the [nodes] dictionary, whose insertion order is observable, is an
      association list. *)

From Stdlib Require Import ZArith Lia String Ascii List Bool Permutation Sorted.
From stdpp Require Import gmap strings list fin_maps pretty.

Local Open Scope string_scope.
Local Open Scope list_scope.
Local Open Scope nat_scope.

Set Warnings "-register-all,-clear-no-such-hyp".

(** ** Python string helpers *)

Module PyStr.

(** [c in s] for a one-character needle. *)
Fixpoint contains (c : ascii) (s : string) : bool :=
  match s with
  | EmptyString => false
  | String a s' => Ascii.eqb a c || contains c s'
  end.

(** [s.count(c)] for a one-character needle. *)
Fixpoint count (c : ascii) (s : string) : nat :=
  match s with
  | EmptyString => 0
  | String a s' => (if Ascii.eqb a c then 1 else 0) + count c s'
  end.

(** [s.rsplit(c, 1)] when [c] occurs in [s]: the text before and the text
    after the last occurrence; [None] when [c] does not occur (Python then
    returns the one-element list [[s]]). *)
Fixpoint rsplit1 (c : ascii) (s : string) : option (string * string) :=
  match s with
  | EmptyString => None
  | String a s' =>
      match rsplit1 c s' with
      | Some (h, t) => Some (String a h, t)
      | None => if Ascii.eqb a c then Some (EmptyString, s') else None
      end
  end.

(** [s.rsplit(c, 1)[0]]. *)
Definition rsplit_head (c : ascii) (s : string) : string :=
  match rsplit1 c s with Some (h, _) => h | None => s end.

(** [s.rsplit(c, 1)[-1]]. *)
Definition rsplit_last (c : ascii) (s : string) : string :=
  match rsplit1 c s with Some (_, t) => t | None => s end.

(** [s.startswith(p)]. *)
Definition startswith (s p : string) : bool := String.prefix p s.

(** Truthiness of an optional string: [None] and [""] are falsy. *)
Definition truthy (o : option string) : bool :=
  match o with
  | Some s => negb (String.eqb s "")
  | None => false
  end.

(** [o or d]. *)
Definition or_else (o : option string) (d : string) : string :=
  match o with
  | Some s => if String.eqb s "" then d else s
  | None => d
  end.

End PyStr.

Definition slash : ascii := "/"%char.
Definition dot : ascii := "."%char.

(** ** Diagram planner *)

Record diagram_plan := {
  diagramCount : Z;
  targetNodesPerDiagram : Z
}.

(** [_suggest_diagram_counts(total)]; [//] is floor division, which is
    [Z.div] for the positive divisor [max(count, 1)]. *)
Definition _suggest_diagram_counts (total : Z) : diagram_plan :=
  let count :=
    if (total <=? 80)%Z then 1%Z
    else if (total <=? 200)%Z then 2%Z
    else if (total <=? 400)%Z then 3%Z
    else 4%Z in
  let target :=
    Z.max 30 (Z.min 150 (if (total =? 0)%Z then 0 else total / Z.max count 1))%Z in
  {| diagramCount := count; targetNodesPerDiagram := target |}.

(** [clamp(x, lo, hi)] as the spec writes it. *)
Definition clamp (x lo hi : Z) : Z := Z.max lo (Z.min hi x).

(** ** Entity records *)

(** The [object] reference of a record: the fields the engine reads. *)
Record obj := mk_obj {
  hierarchyPath : option string;
  globalId : option string;
  obj_name : option string;
  prefabPath : option string
}.

(** The empty JSON object [{}]. *)
Definition empty_obj : obj := mk_obj None None None None.

(** One entry of the scene object index. [layer] is the integer Unity layer;
    [transform] is carried through untouched. *)
Record entry := mk_entry {
  object : option obj;
  activeSelf : option bool;
  activeInHierarchy : option bool;
  tag : option string;
  layer : option Z;
  isStatic : option bool;
  componentTypeNames : option (list string);
  transform : option string
}.

(** [entry.get("object") or {}]. *)
Definition entry_obj (e : entry) : obj := default empty_obj (object e).

(** [obj.get("hierarchyPath")] when it is truthy. *)
Definition path_of (o : obj) : option string :=
  match hierarchyPath o with
  | Some p => if String.eqb p "" then None else Some p
  | None => None
  end.

(** ** Tree builder *)

(** What a node dictionary holds besides its [children]. *)
Record node_info := mk_info {
  n_object : obj;
  n_activeSelf : option bool;
  n_activeInHierarchy : option bool;
  n_tag : option string;
  n_layer : option Z;
  n_isStatic : option bool;
  n_componentTypeNames : list string;
  n_transform : option string
}.

Definition node_of_entry (e : entry) : node_info :=
  {| n_object := entry_obj e;
     n_activeSelf := activeSelf e;
     n_activeInHierarchy := activeInHierarchy e;
     n_tag := tag e;
     n_layer := layer e;
     n_isStatic := isStatic e;
     n_componentTypeNames := default [] (componentTypeNames e);
     n_transform := transform e |}.

(** A node object while the tree is being built. Python appends node
    objects to [parent["children"]] by reference; at that point every node
    object is the value of exactly one key of [nodes], so a reference is
    modelled by that key. *)
Record hnode := mk_hnode {
  h_info : node_info;
  h_children : list string
}.

(** Insertion-ordered dictionaries with string keys. *)
Module ODict.

Fixpoint get {V} (k : string) (d : list (string * V)) : option V :=
  match d with
  | [] => None
  | (k', v) :: d' => if String.eqb k' k then Some v else get k d'
  end.

(** [d[k] = v]: an existing key keeps its position, a new key goes last. *)
Fixpoint set {V} (k : string) (v : V) (d : list (string * V)) : list (string * V) :=
  match d with
  | [] => [(k, v)]
  | (k', v') :: d' =>
      if String.eqb k' k then (k', v) :: d' else (k', v') :: set k v d'
  end.

Definition keys {V} (d : list (string * V)) : list string := map fst d.

End ODict.

(** First loop of [_build_tree]: one fresh node per truthy path; a later
    record with the same path replaces the node of an earlier one. *)
Definition index_step (nodes : list (string * hnode)) (e : entry) : list (string * hnode) :=
  match path_of (entry_obj e) with
  | None => nodes
  | Some path => ODict.set path (mk_hnode (node_of_entry e) []) nodes
  end.

Definition index_nodes (objects : list entry) : list (string * hnode) :=
  fold_left index_step objects [].

(** Body of the second loop of [_build_tree]. The state is the list of root
    references and the store of node objects. A node dictionary always has
    nine keys, so [if parent:] tests only that the lookup succeeded. *)
Definition link_step (st : list string * list (string * hnode)) (path : string)
  : list string * list (string * hnode) :=
  let '(roots, nodes) := st in
  if PyStr.contains slash path then
    let parent_path := PyStr.rsplit_head slash path in
    match ODict.get parent_path nodes with
    | Some parent =>
        (roots,
         ODict.set parent_path
           (mk_hnode (h_info parent) (h_children parent ++ [path])) nodes)
    | None => (roots ++ [path], nodes)
    end
  else (roots ++ [path], nodes).

Definition link_nodes (nodes : list (string * hnode)) : list string * list (string * hnode) :=
  fold_left link_step (ODict.keys nodes) ([], nodes).

(** A node together with everything reachable through [children]. *)
Inductive tree := Node (info : node_info) (children : list tree).

Definition info_of (t : tree) : node_info := match t with Node i _ => i end.
Definition children_of (t : tree) : list tree := match t with Node _ cs => cs end.

(** Reading the object graph below a reference as a value. The traversal is
    bounded by [fuel]; [None] means the bound was too small or a reference
    dangles. *)
Fixpoint reify (fuel : nat) (heap : list (string * hnode)) (ref : string) : option tree :=
  match fuel with
  | O => None
  | S fuel' =>
      match ODict.get ref heap with
      | None => None
      | Some n =>
          match mapM (reify fuel' heap) (h_children n) with
          | Some cs => Some (Node (h_info n) cs)
          | None => None
          end
      end
  end.

(** A child's path is strictly longer than its parent's, so no chain of
    [children] is longer than the longest path. *)
Definition tree_fuel (heap : list (string * hnode)) : nat :=
  S (max_list (map String.length (ODict.keys heap))).

(** The tree below a key of the store. *)
Definition subtree (heap : list (string * hnode)) (q : string) : option tree :=
  reify (tree_fuel heap) heap q.

(** [_build_tree(objects)]: the roots and the [nodes] dictionary, both with
    the node objects read back as trees. *)
Definition _build_tree (objects : list entry)
  : option (list tree * list (string * tree)) :=
  let '(roots, heap) := link_nodes (index_nodes objects) in
  match mapM (subtree heap) roots,
        mapM (fun k => pair k <$> subtree heap k) (ODict.keys heap) with
  | Some rs, Some ns => Some (rs, ns)
  | _, _ => None
  end.

(** [_count_subtree(node)]. *)
Fixpoint _count_subtree (t : tree) : nat :=
  match t with
  | Node _ cs => fold_left (fun count child => count + _count_subtree child) cs 1
  end.

(** ** Tree sorter *)

(** [list.sort(key=...)]: a stable sort, here by insertion; [le a b] says
    that the key of [a] is not greater than the key of [b]. *)
Fixpoint insert_by {A} (le : A -> A -> bool) (x : A) (l : list A) : list A :=
  match l with
  | [] => [x]
  | y :: l' => if le x y then x :: l else y :: insert_by le x l'
  end.

Definition sort_by {A} (le : A -> A -> bool) (l : list A) : list A :=
  foldr (insert_by le) [] l.

(** The sort key [(c.get("object") or {}).get("hierarchyPath", "")]. *)
Definition path_key (t : tree) : string :=
  default "" (hierarchyPath (n_object (info_of t))).

Definition path_le (a b : tree) : bool := String.leb (path_key a) (path_key b).

(** Both files sort in place. Sorting a child list changes neither the key
    of its owner nor the keys of the children, so the value left behind by
    the in-place recursion is obtained by processing the children first and
    sorting the level afterwards; the equations in the shape of the source
    are [OrchestrateMapping.sort_tree_unfold] and
    [SceneOutline.sort_tree_unfold]. *)
Fixpoint sort_below (t : tree) : tree :=
  match t with
  | Node i cs => Node i (sort_by path_le (map sort_below cs))
  end.

Module OrchestrateMapping.

(** [_sort_tree] of orchestrate_mapping.py: [nodes.sort(key=...)], then
    [_sort_tree(node.get("children", []))] for every node. *)
Definition _sort_tree (nodes : list tree) : list tree :=
  sort_by path_le (map sort_below nodes).

End OrchestrateMapping.

Module SceneOutline.

(** [_sort_tree] of scene_outline.py: for every node,
    [node["children"].sort(key=...)] and [_sort_tree(node["children"])];
    the list [nodes] itself is never sorted. *)
Definition _sort_tree (nodes : list tree) : list tree :=
  map sort_below nodes.

End SceneOutline.

(** ** Grouping aggregator *)

Definition _normalize_component_name (component_name : string) : string :=
  if String.eqb component_name "" then ""
  else if PyStr.contains dot component_name
       then PyStr.rsplit_last dot component_name
       else component_name.

(** [d[k] = d.get(k, 0) + 1]. *)
Definition bump `{Countable K} (k : K) (d : gmap K nat) : gmap K nat :=
  <[k := default 0 (d !! k) + 1]> d.

(** The five count tables filled by the loop over [objects]. *)
Record count_tables := mk_tables {
  tag_counts : gmap string nat;
  layer_counts : gmap string nat;
  prefab_counts : gmap string nat;
  component_counts : gmap string nat;
  depth_counts : gmap nat nat
}.

Definition empty_tables : count_tables := mk_tables ∅ ∅ ∅ ∅ ∅.

(** [{_normalize_component_name(name) for name in raw_components if name}]. *)
Definition normalized_components (e : entry) : gset string :=
  list_to_set
    (map _normalize_component_name
       (List.filter (fun name => negb (String.eqb name ""))
          (default [] (componentTypeNames e)))).

(** [for comp in normalized: if not comp: continue; component_counts[comp] += 1].
    Python leaves the iteration order of a set unspecified; [elements] is
    one such order, and the resulting table does not depend on it. *)
Definition count_components (normalized : gset string) (d : gmap string nat)
  : gmap string nat :=
  foldr (fun comp d => if String.eqb comp "" then d else bump comp d)
        d (elements normalized).

(** [entry.get("tag") or "Untagged"]. *)
Definition tag_key (e : entry) : string := PyStr.or_else (tag e) "Untagged".

(** [str(layer) if layer is not None else "0"]. *)
Definition layer_key (e : entry) : string :=
  match layer e with Some l => pretty l | None => "0" end.

(** [path.count("/")] with [path = obj.get("hierarchyPath") or ""]. *)
Definition depth_of (e : entry) : nat :=
  PyStr.count slash (PyStr.or_else (hierarchyPath (entry_obj e)) "").

(** Body of the loop over [objects] in [_build_grouping_lenses]. *)
Definition lens_step (t : count_tables) (e : entry) : count_tables :=
  let prefab_path := prefabPath (entry_obj e) in
  {| tag_counts := bump (tag_key e) (tag_counts t);
     layer_counts := bump (layer_key e) (layer_counts t);
     prefab_counts :=
       (if PyStr.truthy prefab_path
        then bump (default "" prefab_path) (prefab_counts t)
        else prefab_counts t);
     component_counts := count_components (normalized_components e) (component_counts t);
     depth_counts := bump (depth_of e) (depth_counts t) |}.

Definition count_lenses (objects : list entry) : count_tables :=
  fold_left lens_step objects empty_tables.

Record root_group := mk_root_group {
  rg_globalId : option string;
  rg_name : option string;
  rg_hierarchyPath : option string;
  rg_subtreeSize : nat
}.

Definition root_group_of (root : tree) : root_group :=
  let o := n_object (info_of root) in
  {| rg_globalId := globalId o;
     rg_name := obj_name o;
     rg_hierarchyPath := hierarchyPath o;
     rg_subtreeSize := _count_subtree root |}.

(** Order of the key [(-count, text)]: larger counts first, then the text. *)
Definition desc_count_le (c1 : nat) (s1 : string) (c2 : nat) (s2 : string) : bool :=
  (c2 <? c1) || ((c1 =? c2) && String.leb s1 s2).

(** [top_counts(source, limit)]. *)
Definition top_counts (source : gmap string nat) (limit : nat) : list (string * nat) :=
  take limit
    (sort_by (fun a b => desc_count_le (snd a) (fst a) (snd b) (fst b))
             (map_to_list source)).

Record grouping_lenses := mk_lenses {
  gl_roots : list root_group;
  gl_tags : list (string * nat);
  gl_layers : list (string * nat);
  gl_prefabs : list (string * nat);
  gl_components : list (string * nat);
  gl_depthHistogram : list (nat * nat)
}.

(** [_build_grouping_lenses(objects, roots)]. *)
Definition _build_grouping_lenses (objects : list entry) (roots : list tree)
  : grouping_lenses :=
  let t := count_lenses objects in
  let root_groups := map root_group_of roots in
  {| gl_roots :=
       sort_by (fun a b =>
                  desc_count_le (rg_subtreeSize a) (PyStr.or_else (rg_hierarchyPath a) "")
                                (rg_subtreeSize b) (PyStr.or_else (rg_hierarchyPath b) ""))
               root_groups;
     gl_tags := top_counts (tag_counts t) 25;
     gl_layers := top_counts (layer_counts t) 25;
     gl_prefabs := top_counts (prefab_counts t) 25;
     gl_components := top_counts (component_counts t) 25;
     gl_depthHistogram :=
       sort_by (fun a b => (fst a <? fst b) || ((fst a =? fst b) && (snd a <=? snd b)))
               (map_to_list (depth_counts t)) |}.

(** ** Diagram partitioner *)

Record diagram := mk_diagram {
  title : string;
  rootPaths : list string;
  objectIds : list string;
  nodeCount : nat
}.

(** [[{"title": f"Diagram {i + 1}", ...} for i in range(diagram_count)]]. *)
Definition fresh_diagrams (diagram_count : Z) : list diagram :=
  map (fun i => mk_diagram ("Diagram " +:+ pretty (i + 1)%nat) [] [] 0)
      (seq 0 (Z.to_nat diagram_count)).

(** First loop of [_build_diagrams]: the truthy root paths in order, and
    the size recorded for each (a later root with the same path wins). *)
Definition collect_root (st : list string * gmap string nat) (root : tree)
  : list string * gmap string nat :=
  match path_of (n_object (info_of root)) with
  | None => st
  | Some path => (fst st ++ [path], <[path := _count_subtree root]> (snd st))
  end.

Definition collect_roots (roots : list tree) : list string * gmap string nat :=
  fold_left collect_root roots ([], ∅).

(** Order of the key [(-root_sizes.get(p, 0), p)]. *)
Definition root_le (root_sizes : gmap string nat) (p q : string) : bool :=
  desc_count_le (default 0 (root_sizes !! p)) p (default 0 (root_sizes !! q)) q.

(** Order of the key [(d["nodeCount"], d["title"])]. *)
Definition diagram_le (a b : diagram) : bool :=
  (nodeCount a <? nodeCount b)
  || ((nodeCount a =? nodeCount b) && String.leb (title a) (title b)).

(** Body of the greedy loop: sort the diagrams, give the root to
    [diagrams[0]]. The list is never empty there (see
    [assign_roots_length]); on an empty list Python would raise. *)
Definition assign_root (root_sizes : gmap string nat) (diagrams : list diagram)
  (root_path : string) : list diagram :=
  match sort_by diagram_le diagrams with
  | [] => []
  | target :: rest =>
      mk_diagram (title target) (rootPaths target ++ [root_path])
                 (objectIds target)
                 (nodeCount target + default 0 (root_sizes !! root_path))
      :: rest
  end.

(** [path == root_path or path.startswith(root_path + "/")]. *)
Definition under_root (path root_path : string) : bool :=
  String.eqb path root_path || PyStr.startswith path (root_path +:+ "/").

(** The two nested [for] loops with their [break]s: the first diagram that
    has a matching root path receives [gid]. *)
Fixpoint tag_member (gid path : string) (diagrams : list diagram) : list diagram :=
  match diagrams with
  | [] => []
  | d :: rest =>
      if existsb (under_root path) (rootPaths d)
      then mk_diagram (title d) (rootPaths d) (objectIds d ++ [gid]) (nodeCount d) :: rest
      else d :: tag_member gid path rest
  end.

(** Body of the loop over [objects] in [_build_diagrams]. *)
Definition member_step (diagrams : list diagram) (e : entry) : list diagram :=
  let o := entry_obj e in
  let path := PyStr.or_else (hierarchyPath o) "" in
  if PyStr.truthy (globalId o)
  then tag_member (default "" (globalId o)) path diagrams
  else diagrams.

(** [_build_diagrams(objects, roots, diagram_count)]. *)
Definition _build_diagrams (objects : list entry) (roots : list tree)
  (diagram_count : Z) : list diagram :=
  let '(root_paths, root_sizes) := collect_roots roots in
  match root_paths with
  | [] => fresh_diagrams (Z.max 1 diagram_count)
  | _ :: _ =>
      let diagram_count :=
        Z.min (Z.max 1 diagram_count) (Z.of_nat (length root_paths)) in
      let diagrams :=
        fold_left (assign_root root_sizes)
                  (sort_by (root_le root_sizes) root_paths)
                  (fresh_diagrams diagram_count) in
      fold_left member_step objects diagrams
  end.

(** ** Relationship deriver *)

Record row := mk_row {
  subject : obj;
  predicate : string;
  row_object : obj;
  confidence : string;   (* the literal 1.0 *)
  evidence : list string;
  subsystem : string;
  condition : string
}.

(** First loop of [_build_hierarchy_rows]. *)
Definition path_index (objects : list entry) : gmap string obj :=
  fold_left
    (fun path_to_ref e =>
       match path_of (entry_obj e) with
       | Some path => <[path := entry_obj e]> path_to_ref
       | None => path_to_ref
       end)
    objects ∅.

(** Body of the second loop. [seen] holds the keys
    [f"{parent_id}|part_of|{child_id}"]. A [parent] found in [path_to_ref]
    has a truthy path, so [not parent] is false for it. *)
Definition row_step (path_to_ref : gmap string obj) (cond : string)
  (st : list row * gset string) (e : entry) : list row * gset string :=
  let child := entry_obj e in
  match path_of child with
  | None => st
  | Some child_path =>
      if negb (PyStr.contains slash child_path) || negb (PyStr.truthy (globalId child))
      then st
      else
        let child_id := default "" (globalId child) in
        let parent_path := PyStr.rsplit_head slash child_path in
        match path_to_ref !! parent_path with
        | None => st
        | Some parent =>
            if negb (PyStr.truthy (globalId parent)) then st
            else
              let parent_id := default "" (globalId parent) in
              let key := parent_id +:+ "|part_of|" +:+ child_id in
              if decide (key ∈ snd st) then st
              else (fst st ++ [mk_row parent "part_of" child "1.0" [] "Scene" cond],
                    {[key]} ∪ snd st)
        end
  end.

(** [_build_hierarchy_rows(objects, condition)]. *)
Definition _build_hierarchy_rows (objects : list entry) (cond : string) : list row :=
  fst (fold_left (row_step (path_index objects) cond) objects ([], ∅)).

(** ** Ingestion controller *)

(** A page of the scene object index. [Cursor] is the type of the values
    other than [None] that the remote side may put in [next_offset]. *)
Record page_data (Cursor : Type) := mk_page {
  pd_objects : option (list entry);
  pd_next_offset : option Cursor
}.
Arguments mk_page {Cursor} _ _.
Arguments pd_objects {Cursor} _.
Arguments pd_next_offset {Cursor} _.

(** A response that is a dictionary; [success] is the truthiness of
    [index_response.get("success")]. *)
Record response_dict (Cursor : Type) := mk_response {
  success : bool;
  message : option string;
  data : option (page_data Cursor)
}.
Arguments mk_response {Cursor} _ _ _.
Arguments success {Cursor} _.
Arguments message {Cursor} _.
Arguments data {Cursor} _.

(** What the transport hands back: a dictionary, or anything else, of which
    only [str(...)] is used. *)
Inductive response (Cursor : Type) :=
| RespDict (d : response_dict Cursor)
| RespOther (text : string).
Arguments RespDict {Cursor} _.
Arguments RespOther {Cursor} _.

(** How the pagination loop of [orchestrate_mapping] ends: it falls through
    to the tree builder with the accumulated [objects], or it returns a
    failure response at once. *)
Inductive ingestion (Cursor : Type) :=
| Ingested (objects : list entry)
| Aborted (failure : response_dict Cursor).
Arguments Ingested {Cursor} _.
Arguments Aborted {Cursor} _.

(** [data.get("objects") or []] with [data = index_response.get("data") or {}]. *)
Definition batch_of {Cursor} (d : response_dict Cursor) : list entry :=
  match data d with
  | Some pd => default [] (pd_objects pd)
  | None => []
  end.

(** [data.get("next_offset")]. *)
Definition next_offset_of {Cursor} (d : response_dict Cursor) : option Cursor :=
  match data d with
  | Some pd => pd_next_offset pd
  | None => None
  end.

Section Ingestion.

(** The remote side is a state [World] and one call: [fetch w offset] is
    the response to the page request at [offset] and the state after it.
    [py_int] is Python's [int(...)]: [None] when it raises. *)
Context {World Cursor : Type}.
Variable fetch : World -> Z -> response Cursor * World.
Variable py_int : Cursor -> option Z.

(** The [while next_offset is not None] loop. [next_offset] starts at 0
    and is only reassigned just before the two [break]s, so the loop
    condition holds whenever it is tested. [fuel] bounds the number of
    pages; [None] means the bound was reached. *)
Fixpoint ingest_loop (fuel : nat) (w : World) (offset : Z) (objects : list entry)
  : option (ingestion Cursor * World) :=
  match fuel with
  | O => None
  | S fuel' =>
      let '(index_response, w') := fetch w offset in
      match index_response with
      | RespDict d =>
          if success d then
            let objects' := objects ++ batch_of d in
            match next_offset_of d with
            | None => Some (Ingested objects', w')
            | Some next_offset =>
                match py_int next_offset with
                | Some offset' => ingest_loop fuel' w' offset' objects'
                | None => Some (Ingested objects', w')
                end
            end
          else Some (Aborted d, w')
      | RespOther text =>
          Some (Aborted (mk_response false (Some text) None), w')
      end
  end.

Definition ingest (fuel : nat) (w : World) : option (ingestion Cursor * World) :=
  ingest_loop fuel w 0%Z [].

(** One more round of the loop: a successful page whose cursor parses. *)
Inductive next_page : World * Z * list entry -> World * Z * list entry -> Prop :=
| next_page_intro w offset objects d w' c offset' :
    fetch w offset = (RespDict d, w') ->
    success d = true ->
    next_offset_of d = Some c ->
    py_int c = Some offset' ->
    next_page (w, offset, objects) (w', offset', objects ++ batch_of d).

(** The loop states reachable from the start of an ingestion. *)
Inductive reachable (w0 : World) : World * Z * list entry -> Prop :=
| reachable_start : reachable w0 (w0, 0%Z, [])
| reachable_next s s' : reachable w0 s -> next_page s s' -> reachable w0 s'.

End Ingestion.

(** ** Orchestration after ingestion *)

(** The part of [orchestrate_mapping] between the pagination loop and the
    commit: tree, sorted roots, suggestion, diagrams, rows. *)
Record mapping := mk_mapping {
  m_roots : list tree;
  m_suggestion : diagram_plan;
  m_diagrams : list diagram;
  m_rows : list row
}.

Definition map_scene (objects : list entry) (cond : string) : option mapping :=
  match _build_tree objects with
  | None => None
  | Some (roots, _) =>
      let roots := OrchestrateMapping._sort_tree roots in
      let total_count := Z.of_nat (length objects) in
      let diagram_suggestion := _suggest_diagram_counts total_count in
      Some {| m_roots := roots;
              m_suggestion := diagram_suggestion;
              m_diagrams := _build_diagrams objects roots (diagramCount diagram_suggestion);
              m_rows := _build_hierarchy_rows objects cond |}
  end.


(** ** Vocabulary of the statements *)

(** The truthy paths of the records, in order. *)
Definition record_paths (objects : list entry) : list string :=
  omap (fun e => path_of (entry_obj e)) objects.

(** Every node of the first loop is a leaf that carries its own key as path. *)
Definition fresh_node (k : string) (n : hnode) : Prop :=
  hierarchyPath (n_object (h_info n)) = Some k /\ h_children n = [].

(** [p] names [q] as its parent: [p] has a separator and [q] is what comes
    before the last one. *)
Definition child_of (q p : string) : bool :=
  PyStr.contains slash p && String.eqb (PyStr.rsplit_head slash p) q.

(** The parent path of [p] is one of [keys]. *)
Definition has_parent (keys : list string) (p : string) : bool :=
  PyStr.contains slash p && existsb (String.eqb (PyStr.rsplit_head slash p)) keys.

(** The size of the tree below a key of the store. *)
Definition subtree_size (heap : list (string * hnode)) (q : string) : nat :=
  from_option _count_subtree 0 (subtree heap q).

(** A record with a resolvable path: [hierarchyPath] present and non-empty. *)
Definition has_path (e : entry) : bool := PyStr.truthy (hierarchyPath (entry_obj e)).

(** A record with an identity: [globalId] present and non-empty. *)
Definition has_identity (e : entry) : bool := PyStr.truthy (globalId (entry_obj e)).

(** The path a tree node carries. *)
Definition tree_path (t : tree) : option string := hierarchyPath (n_object (info_of t)).

(** The parent record the relationship deriver finds for [child]: the
    reference stored under the text before the last separator of the
    child's path. *)
Definition parent_ref (objects : list entry) (child : obj) : option obj :=
  match path_of child with
  | Some p =>
      if PyStr.contains slash p
      then path_index objects !! PyStr.rsplit_head slash p
      else None
  | None => None
  end.

(** The child has an identity and its parent record exists and has one. *)
Definition edge_allowed (objects : list entry) (child : obj) : bool :=
  PyStr.truthy (globalId child)
  && match parent_ref objects child with
     | Some parent => PyStr.truthy (globalId parent)
     | None => false
     end.

(** Subject identity, predicate and object identity of a row. *)
Definition edge_of (r : row) : option string * string * option string :=
  (globalId (subject r), predicate r, globalId (row_object r)).

(** ** Sample scenes *)

Module Sample.

(** A record with only a path and, possibly, an identity. *)
Definition record (path : string) (gid : option string) : entry :=
  mk_entry (Some (mk_obj (Some path) gid None None))
           None None None None None None None.

(** The records [A], [A/B], [A/B/C], [D] with identities [a], [ab], [abc], [d]. *)
Definition chain : list entry :=
  [record "A" (Some "a"); record "A/B" (Some "ab");
   record "A/B/C" (Some "abc"); record "D" (Some "d")].

(** A single nested record whose parent is not in the scene. *)
Definition orphan : list entry := [record "X/Y" None].

(** Two top-level records, listed against the alphabet. *)
Definition unordered : list entry := [record "B" None; record "A" None].

(** A record with an identity, a tag, a layer, a prefab and components,
    but no path. *)
Definition pathless : entry :=
  mk_entry (Some (mk_obj None (Some "x") None (Some "Assets/P.prefab")))
           None None (Some "Enemy") (Some 3%Z) None
           (Some ["UnityEngine.Transform"; ""; "Transform"; "Foo"]) None.

End Sample.

(** Every child list below [t] is in ascending path order. *)
Inductive ordered_below : tree -> Prop :=
| ordered_node i cs :
    Sorted (fun a b => path_le a b = true) cs ->
    Forall ordered_below cs ->
    ordered_below (Node i cs).

(** Siblings are in ascending path order at every level, the top level
    included. *)
Definition ordered_forest (nodes : list tree) : Prop :=
  Sorted (fun a b => path_le a b = true) nodes /\ Forall ordered_below nodes.

(** No diagram owns an empty root path. *)
Definition roots_nonempty (diagrams : list diagram) : Prop :=
  Forall (fun d => Forall (fun root_path => root_path <> "") (rootPaths d)) diagrams.

(** The truthy paths of the roots, in order. *)
Definition root_paths_of (roots : list tree) : list string :=
  omap (fun root => path_of (n_object (info_of root))) roots.

(** The count a table holds for a key, 0 when the key is absent. *)
Definition hits `{Countable K} (d : gmap K nat) (k : K) : nat := default 0 (d !! k).

(** A session of the remote side: a page with cursor ["2"], then a page
    whose cursor is not a number, then failures. The state counts the calls. *)
Module SampleSession.

Definition leaf (p : string) : entry := Sample.record p (Some p).

Definition py_int (c : string) : option Z :=
  if String.eqb c "2" then Some 2%Z else None.

Definition page (names : list string) (cursor : option string) : response string :=
  RespDict (mk_response true None (Some (mk_page (Some (map leaf names)) cursor))).

Definition fetch (calls : nat) (offset : Z) : response string * nat :=
  (match calls with
   | 0 => page ["A"; "A/B"] (Some "2")
   | 1 => page ["C"] (Some "soon")
   | _ => RespDict (mk_response false (Some "gone") None)
   end, S calls).

End SampleSession.

(** The forest of [Sample.chain], written out. *)
Definition sample_forest : list tree :=
  [Node (node_of_entry (Sample.record "A" (Some "a")))
     [Node (node_of_entry (Sample.record "A/B" (Some "ab")))
        [Node (node_of_entry (Sample.record "A/B/C" (Some "abc"))) []]];
   Node (node_of_entry (Sample.record "D" (Some "d"))) []].


(** ** Further vocabulary *)

(** The paths of a tree, the node first, then its children in order. *)
Fixpoint tree_paths (t : tree) : list (option string) :=
  match t with
  | Node i cs => hierarchyPath (n_object i) :: flat_map tree_paths cs
  end.

Definition forest_paths (nodes : list tree) : list (option string) :=
  flat_map tree_paths nodes.

(** Every node below [t] carries a path, and the path of every child names
    the path of its owner as parent. *)
Inductive linked : tree -> Prop :=
| linked_node i cs q :
    hierarchyPath (n_object i) = Some q ->
    Forall (fun c => exists p, tree_path c = Some p /\ child_of q p = true) cs ->
    Forall linked cs ->
    linked (Node i cs).

(** [obj.get("hierarchyPath") or ""] of a record. *)
Definition record_path (e : entry) : string :=
  PyStr.or_else (hierarchyPath (entry_obj e)) "".

(** The key [f"{parent_id}|part_of|{child_id}"] of an edge. *)
Definition edge_key (parent child : obj) : string :=
  default "" (globalId parent) +:+ "|part_of|" +:+ default "" (globalId child).

Definition row_key (r : row) : string := edge_key (subject r) (row_object r).

(** The sum of the counts of a table. *)
Definition table_total `{Countable K} (d : gmap K nat) : nat :=
  sum_list (snd <$> map_to_list d).

(** The diagram that receives a root: the one [diagrams[0]] after the sort. *)
Definition receive (root_sizes : gmap string nat) (target : diagram) (root_path : string)
  : diagram :=
  mk_diagram (title target) (rootPaths target ++ [root_path]) (objectIds target)
             (nodeCount target + default 0 (root_sizes !! root_path)).

(** ** Sidecar path *)

Definition DEFAULT_CONDITION : string := "Unity Development".
Definition DEFAULT_ASSET_PATH : string :=
  "Assets/MCP/Generated/StructureMappingTable.asset".

(** The value [_write_diagrams_json(project_root, asset_path, ...)] returns:
    [None] on the two guards, otherwise [rel_path]. Creating the directory
    and writing the file are outside the model; [diagrams] and [payload]
    only reach the file. *)
Definition _write_diagrams_json (project_root asset_path : string) : option string :=
  if String.eqb project_root "" || String.eqb asset_path "" then None
  else if negb (PyStr.startswith asset_path "Assets/") then None
  else
    let rel_base := PyStr.rsplit_head dot asset_path in
    Some (rel_base +:+ ".diagrams.json").

(** ** Ingestion loop of the scene outline resource *)

(** How the pagination loop of [get_scene_outline] ends: with the
    accumulated [objects], or with the [error] text of the
    [MCPResponse(success=False, ...)] it returns. *)
Inductive outline_ingestion :=
| OutlineIngested (objects : list entry)
| OutlineFailed (error : string).

Section OutlineIngestion.

Context {World Cursor : Type}.
Variable fetch : World -> Z -> response Cursor * World.
Variable py_int : Cursor -> option Z.

(** The loop of scene_outline.py. It differs from the loop of
    orchestrate_mapping.py only in what a failed page turns into:
    [index_response.get("message", "Failed to load scene outline.")] for a
    dictionary, the fixed text otherwise. *)
Fixpoint outline_loop (fuel : nat) (w : World) (offset : Z) (objects : list entry)
  : option (outline_ingestion * World) :=
  match fuel with
  | O => None
  | S fuel' =>
      let '(index_response, w') := fetch w offset in
      match index_response with
      | RespDict d =>
          if success d then
            let objects' := objects ++ batch_of d in
            match next_offset_of d with
            | None => Some (OutlineIngested objects', w')
            | Some next_offset =>
                match py_int next_offset with
                | Some offset' => outline_loop fuel' w' offset' objects'
                | None => Some (OutlineIngested objects', w')
                end
            end
          else Some (OutlineFailed (default "Failed to load scene outline." (message d)), w')
      | RespOther _ => Some (OutlineFailed "Failed to load scene outline.", w')
      end
  end.

End OutlineIngestion.

(** The records an ingestion ended with, if it did not fail. *)
Definition ingested_objects {Cursor} (r : ingestion Cursor) : option (list entry) :=
  match r with
  | Ingested objects => Some objects
  | Aborted _ => None
  end.

Definition outline_objects (r : outline_ingestion) : option (list entry) :=
  match r with
  | OutlineIngested objects => Some objects
  | OutlineFailed _ => None
  end.

(** An outcome of the pagination loop with [objects] put in front of the
    records it accumulated; a failure carries no records. *)
Definition with_prefix {Cursor} (objects : list entry) (r : ingestion Cursor)
  : ingestion Cursor :=
  match r with
  | Ingested more => Ingested (objects ++ more)
  | Aborted failure => Aborted failure
  end.

(** ** Summary counts *)

Record scene_summary := mk_summary {
  totalObjects : nat;
  s_activeInHierarchy : nat;
  s_activeSelf : nat;
  inactive : Z
}.

(** [entry.get(...) is True]. *)
Definition is_true (o : option bool) : bool :=
  match o with Some true => true | _ => false end.

(** The [summary] dictionary of [orchestrate_mapping] and of
    [get_scene_outline]. *)
Definition summarize (objects : list entry) : scene_summary :=
  let total_count := length objects in
  let active_in_hierarchy :=
    length (List.filter (fun e => is_true (activeInHierarchy e)) objects) in
  let active_self := length (List.filter (fun e => is_true (activeSelf e)) objects) in
  {| totalObjects := total_count;
     s_activeInHierarchy := active_in_hierarchy;
     s_activeSelf := active_self;
     inactive := (Z.of_nat total_count - Z.of_nat active_in_hierarchy)%Z |}.

(** * Part II. Theorems *)

(** ** Theorems: diagram planner *)

Section Planner.

Local Open Scope Z_scope.

Lemma planner_count_cases total :
  diagramCount (_suggest_diagram_counts total) =
    if total <=? 80 then 1 else if total <=? 200 then 2
    else if total <=? 400 then 3 else 4.
Proof. reflexivity. Qed.

Lemma planner_count_pos total :
  1 <= diagramCount (_suggest_diagram_counts total) <= 4.
Proof.
  rewrite planner_count_cases.
  repeat case_match; lia.
Qed.

Lemma planner_target_is_clamp total :
  targetNodesPerDiagram (_suggest_diagram_counts total) =
    clamp (total / diagramCount (_suggest_diagram_counts total)) 30 150.
Proof.
  unfold _suggest_diagram_counts, clamp; cbn [targetNodesPerDiagram diagramCount].
  destruct (Z.eqb_spec total 0) as [->|Hne].
  - reflexivity.
  - repeat case_match; reflexivity.
Qed.

(** C1, as stated, fails: at [totalCount = 0] the planner answers 30, the
    lower clamp bound, not 0. *)
Lemma C1_counterexample :
  ~ (forall total,
       (0 < total ->
          targetNodesPerDiagram (_suggest_diagram_counts total) =
            clamp (total / diagramCount (_suggest_diagram_counts total)) 30 150)
       /\ (total = 0 ->
          targetNodesPerDiagram (_suggest_diagram_counts total) = 0)).
Proof.
  intros H. destruct (H 0) as [_ H0].
  specialize (H0 eq_refl). vm_compute in H0. discriminate.
Qed.

(** C1 (amended): for every total, [targetNodesPerDiagram] is
    [total // diagramCount] clamped into [30,150]; the clamp also applies at
    [total = 0], where the result is 30. *)
Theorem C1_target_clamped_everywhere :
  (forall total,
      targetNodesPerDiagram (_suggest_diagram_counts total) =
        clamp (total / diagramCount (_suggest_diagram_counts total)) 30 150)
  /\ targetNodesPerDiagram (_suggest_diagram_counts 0) = 30.
Proof.
  split; [apply planner_target_is_clamp | reflexivity].
Qed.

(** C5: the diagram count at the eight threshold probes is 1,1,2,2,3,3,4,4,
    and the target stays within [30,150] whenever the total is positive. *)
Theorem C5_thresholds_and_range :
  map (fun t => diagramCount (_suggest_diagram_counts t))
      [0; 80; 81; 200; 201; 400; 401; 1000] = [1; 1; 2; 2; 3; 3; 4; 4]
  /\ forall total, 0 < total ->
       30 <= targetNodesPerDiagram (_suggest_diagram_counts total) <= 150.
Proof.
  split; [reflexivity|].
  intros total _. rewrite planner_target_is_clamp. unfold clamp. lia.
Qed.

Lemma C5_witness :
  0 < 1000 /\ 30 <= targetNodesPerDiagram (_suggest_diagram_counts 1000) <= 150.
Proof.
  split; [lia | apply (proj2 C5_thresholds_and_range 1000); lia].
Defined.

End Planner.
(** ** Theorems: ingestion controller *)

Section IngestionFacts.

Context {World Cursor : Type}.
Variable fetch : World -> Z -> response Cursor * World.
Variable py_int : Cursor -> option Z.

Local Abbreviation loop := (ingest_loop fetch py_int).

(** A page that ends the pagination ends it at any positive bound. *)
Lemma loop_last_page fuel w offset objects d w' :
  fetch w offset = (RespDict d, w') ->
  success d = true ->
  match next_offset_of d with
  | None => True
  | Some c => py_int c = None
  end ->
  loop (S fuel) w offset objects = Some (Ingested (objects ++ batch_of d), w').
Proof.
  intros Hf Hs Hc. cbn [ingest_loop]. rewrite Hf, Hs.
  destruct (next_offset_of d) as [c|]; [rewrite Hc|]; reflexivity.
Qed.

Lemma loop_failed_page fuel w offset objects d w' :
  fetch w offset = (RespDict d, w') ->
  success d = false ->
  loop (S fuel) w offset objects = Some (Aborted d, w').
Proof. intros Hf Hs. cbn [ingest_loop]. rewrite Hf, Hs. reflexivity. Qed.

Lemma loop_next_page fuel s s' :
  next_page fetch py_int s s' ->
  loop (S fuel) s.1.1 s.1.2 s.2 = loop fuel s'.1.1 s'.1.2 s'.2.
Proof.
  intros [w offset objects d w' c offset' Hf Hs Hn Hc]. cbn [fst snd ingest_loop].
  rewrite Hf, Hs, Hn, Hc. reflexivity.
Qed.

(** Reaching a loop state costs a fixed number of rounds. *)
Lemma reachable_rounds w0 s :
  reachable fetch py_int w0 s ->
  exists k, forall fuel,
    ingest fetch py_int (k + fuel) w0 = loop fuel s.1.1 s.1.2 s.2.
Proof.
  induction 1 as [|s s' _ [k IH] Hstep].
  - exists 0. reflexivity.
  - exists (S k). intros fuel.
    replace (S k + fuel) with (k + S fuel) by lia.
    rewrite IH. apply loop_next_page, Hstep.
Qed.

(** A result does not depend on the bound once the bound is large enough. *)
Lemma loop_fuel_mono fuel fuel' w offset objects r :
  fuel <= fuel' ->
  loop fuel w offset objects = Some r ->
  loop fuel' w offset objects = Some r.
Proof.
  revert fuel' w offset objects.
  induction fuel as [|fuel IH]; intros fuel' w offset objects Hle; [discriminate|].
  destruct fuel' as [|fuel']; [lia|]. cbn [ingest_loop].
  destruct (fetch w offset) as [[d|text] w']; [|trivial].
  destruct (success d); [|trivial].
  destruct (next_offset_of d) as [c|]; [|trivial].
  destruct (py_int c); [|trivial].
  apply IH. lia.
Qed.

Lemma ends_with w0 s r :
  reachable fetch py_int w0 s ->
  (forall fuel, loop (S fuel) s.1.1 s.1.2 s.2 = Some r) ->
  exists fuel, forall fuel', fuel <= fuel' ->
    ingest fetch py_int fuel' w0 = Some r.
Proof.
  intros [k Hk]%reachable_rounds Hlast.
  exists (k + 1). intros fuel' Hle.
  replace fuel' with (k + S (fuel' - k - 1)) by lia.
  rewrite Hk. apply Hlast.
Qed.

(** C9: at any round of the pagination loop, with [objects] accumulated so
    far, (1) a successful page whose [next_offset] does not parse as an
    integer ends the loop normally with [objects] plus that page's
    records; (2) so does a successful page whose [next_offset] is absent
    or null; (3) a page with a falsy [success] ends the ingestion at once
    and that very response is the result. In each case every large enough
    page bound gives the result. *)
Theorem C9_pagination_end (w0 w w' : World) (offset : Z) (objects : list entry)
    (d : response_dict Cursor) :
  reachable fetch py_int w0 (w, offset, objects) ->
  fetch w offset = (RespDict d, w') ->
  (forall c, success d = true -> next_offset_of d = Some c -> py_int c = None ->
     exists fuel, forall fuel', fuel <= fuel' ->
       ingest fetch py_int fuel' w0 = Some (Ingested (objects ++ batch_of d), w'))
  /\ (success d = true -> next_offset_of d = None ->
     exists fuel, forall fuel', fuel <= fuel' ->
       ingest fetch py_int fuel' w0 = Some (Ingested (objects ++ batch_of d), w'))
  /\ (success d = false ->
     exists fuel, forall fuel', fuel <= fuel' ->
       ingest fetch py_int fuel' w0 = Some (Aborted d, w')).
Proof.
  intros Hreach Hf. repeat split.
  - intros c Hs Hn Hc. apply (ends_with w0 _ _ Hreach). intros fuel.
    apply loop_last_page with (d := d); cbn; auto. rewrite Hn. exact Hc.
  - intros Hs Hn. apply (ends_with w0 _ _ Hreach). intros fuel.
    apply loop_last_page with (d := d); cbn; auto. rewrite Hn. exact I.
  - intros Hs. apply (ends_with w0 _ _ Hreach). intros fuel.
    apply loop_failed_page; cbn; auto.
Qed.

(** A response that is not a dictionary also stops the ingestion; the
    failure then carries [str(index_response)] as its message. *)
Lemma loop_non_dict_page fuel w offset objects text w' :
  fetch w offset = (RespOther text, w') ->
  loop (S fuel) w offset objects =
    Some (Aborted (mk_response false (Some text) None), w').
Proof. intros Hf. cbn [ingest_loop]. rewrite Hf. reflexivity. Qed.

End IngestionFacts.

(** The second round of the sample session. *)
Lemma sample_second_round :
  reachable SampleSession.fetch SampleSession.py_int 0
    (1, 2%Z, map SampleSession.leaf ["A"; "A/B"]).
Proof.
  eapply reachable_next; [apply reachable_start|].
  exact (next_page_intro SampleSession.fetch SampleSession.py_int 0 0%Z []
           (mk_response true None
              (Some (mk_page (Some (map SampleSession.leaf ["A"; "A/B"])) (Some "2"))))
           1 "2" 2%Z eq_refl eq_refl eq_refl eq_refl).
Qed.

Lemma C9_witness :
  exists fuel, forall fuel', fuel <= fuel' ->
    ingest SampleSession.fetch SampleSession.py_int fuel' 0 =
      Some (Ingested (map SampleSession.leaf ["A"; "A/B"; "C"]), 2).
Proof.
  exact (proj1 (C9_pagination_end SampleSession.fetch SampleSession.py_int
                  0 1 2 2%Z _ _ sample_second_round eq_refl)
               "soon" eq_refl eq_refl eq_refl).
Defined.
(** ** Facts about the string helpers *)

Lemma rsplit1_contains c s :
  PyStr.contains c s = true <-> is_Some (PyStr.rsplit1 c s).
Proof.
  induction s as [|a s IH]; cbn.
  - split; [discriminate | intros [? ?]; discriminate].
  - destruct (PyStr.rsplit1 c s) as [[h t]|].
    + split; [eauto | intros _]. apply orb_true_iff. right. apply IH. eauto.
    + destruct (Ascii.eqb a c); cbn; [split; eauto|].
      rewrite IH. split; intros [? ?]; discriminate.
Qed.

Lemma rsplit1_head_length c s h t :
  PyStr.rsplit1 c s = Some (h, t) -> String.length h < String.length s.
Proof.
  revert h t. induction s as [|a s IH]; intros h t; cbn; [discriminate|].
  destruct (PyStr.rsplit1 c s) as [[h' t']|].
  - intros [= <- <-]. cbn. specialize (IH _ _ eq_refl). lia.
  - destruct (Ascii.eqb a c); [|discriminate]. intros [= <- <-]. cbn. lia.
Qed.

(** The parent path is strictly shorter than the path it is cut from. *)
Lemma rsplit_head_shorter p :
  PyStr.contains slash p = true ->
  String.length (PyStr.rsplit_head slash p) < String.length p.
Proof.
  intros [[h t] Hs]%rsplit1_contains. unfold PyStr.rsplit_head. rewrite Hs.
  eapply rsplit1_head_length, Hs.
Qed.

Lemma path_of_Some o p : path_of o = Some p -> hierarchyPath o = Some p /\ p <> "".
Proof.
  unfold path_of. destruct (hierarchyPath o) as [q|]; [|discriminate].
  destruct (String.eqb_spec q ""); [discriminate|]. intros [= ->]. auto.
Qed.

(** ** Facts about insertion-ordered dictionaries *)

Lemma odict_get_set_eq {V} k (v : V) d : ODict.get k (ODict.set k v d) = Some v.
Proof.
  induction d as [|[k' v'] d IH]; cbn.
  - rewrite String.eqb_refl. reflexivity.
  - destruct (String.eqb_spec k' k) as [->|Hne]; cbn.
    + rewrite String.eqb_refl. reflexivity.
    + destruct (String.eqb_spec k' k); [contradiction | exact IH].
Qed.

Lemma odict_get_set_ne {V} k k0 (v : V) d :
  k0 <> k -> ODict.get k0 (ODict.set k v d) = ODict.get k0 d.
Proof.
  intros Hne. induction d as [|[k' v'] d IH]; cbn.
  - destruct (String.eqb_spec k k0); [congruence | reflexivity].
  - destruct (String.eqb_spec k' k) as [->|Hk]; cbn.
    + destruct (String.eqb_spec k k0); [congruence | reflexivity].
    + destruct (String.eqb_spec k' k0); [reflexivity | exact IH].
Qed.

Lemma odict_get_In {V} k (d : list (string * V)) :
  is_Some (ODict.get k d) <-> In k (ODict.keys d).
Proof.
  induction d as [|[k' v'] d IH]; cbn.
  - split; [intros [? ?]; discriminate | tauto].
  - destruct (String.eqb_spec k' k) as [->|Hne].
    + split; eauto.
    + rewrite IH. split; [tauto | intros [?|?]; [contradiction | trivial]].
Qed.

Lemma odict_get_None {V} k (d : list (string * V)) :
  ODict.get k d = None <-> ~ In k (ODict.keys d).
Proof.
  rewrite <- odict_get_In. destruct (ODict.get k d); split; try tauto.
  - intros [=].
  - intros H. exfalso. apply H. eauto.
  - intros _ [? [=]].
Qed.

(** Assigning to a present key leaves the key order alone. *)
Lemma odict_keys_set_In {V} k (v : V) d :
  In k (ODict.keys d) -> ODict.keys (ODict.set k v d) = ODict.keys d.
Proof.
  induction d as [|[k' v'] d IH]; cbn; [tauto|].
  destruct (String.eqb_spec k' k) as [->|Hne]; cbn; [reflexivity|].
  intros [?|Hin]; [contradiction|]. f_equal. apply IH, Hin.
Qed.

(** Assigning to a new key appends it. *)
Lemma odict_keys_set_new {V} k (v : V) d :
  ~ In k (ODict.keys d) -> ODict.keys (ODict.set k v d) = ODict.keys d ++ [k].
Proof.
  induction d as [|[k' v'] d IH]; cbn; [reflexivity|].
  destruct (String.eqb_spec k' k) as [->|Hne]; cbn; [tauto|].
  intros Hin. f_equal. apply IH. tauto.
Qed.

(** ** The [nodes] dictionary after the first loop *)

Lemma index_step_keys nodes e :
  ODict.keys (index_step nodes e) =
    match path_of (entry_obj e) with
    | Some p => if in_dec string_dec p (ODict.keys nodes) then ODict.keys nodes
                else ODict.keys nodes ++ [p]
    | None => ODict.keys nodes
    end.
Proof.
  unfold index_step. destruct (path_of (entry_obj e)) as [p|]; [|reflexivity].
  destruct (in_dec string_dec p (ODict.keys nodes)).
  - apply odict_keys_set_In; assumption.
  - apply odict_keys_set_new; assumption.
Qed.

Lemma record_paths_cons e objects :
  record_paths (e :: objects) =
    match path_of (entry_obj e) with
    | Some p => p :: record_paths objects
    | None => record_paths objects
    end.
Proof. reflexivity. Qed.

Lemma index_fold_invariant objects nodes :
  NoDup (ODict.keys nodes) ->
  (forall k n, ODict.get k nodes = Some n -> fresh_node k n) ->
  NoDup (ODict.keys (fold_left index_step objects nodes))
  /\ (forall k n, ODict.get k (fold_left index_step objects nodes) = Some n ->
                  fresh_node k n)
  /\ (forall k, In k (ODict.keys (fold_left index_step objects nodes)) <->
                In k (ODict.keys nodes) \/ In k (record_paths objects))
  /\ (NoDup (ODict.keys nodes ++ record_paths objects) ->
      ODict.keys (fold_left index_step objects nodes) =
        ODict.keys nodes ++ record_paths objects).
Proof.
  revert nodes. induction objects as [|e objects IH]; intros nodes Hnd Hfresh.
  - cbn. split; [assumption|]. split; [assumption|]. split; [tauto|].
    intros _. rewrite app_nil_r. reflexivity.
  - assert (Hk := index_step_keys nodes e).
    assert (Hnd' : NoDup (ODict.keys (index_step nodes e))).
    { rewrite Hk. destruct (path_of (entry_obj e)) as [p|]; [|assumption].
      destruct (in_dec string_dec p (ODict.keys nodes)); [assumption|].
      apply NoDup_app. split; [assumption|]. split; [|apply NoDup_singleton].
      intros x Hx [->|[]]%list_elem_of_In. apply list_elem_of_In in Hx. contradiction. }
    assert (Hfresh' : forall k n, ODict.get k (index_step nodes e) = Some n -> fresh_node k n).
    { unfold index_step. destruct (path_of (entry_obj e)) as [p|] eqn:Hp; [|assumption].
      intros k n. destruct (String.eqb_spec k p) as [->|Hne].
      - rewrite odict_get_set_eq. intros [= <-]. split; [|reflexivity].
        cbn. apply path_of_Some in Hp. tauto.
      - rewrite odict_get_set_ne by assumption. apply Hfresh. }
    destruct (IH _ Hnd' Hfresh') as (H1 & H2 & H3 & H4).
    cbn [fold_left]. rewrite record_paths_cons.
    split; [assumption|]. split; [assumption|]. split.
    + intros k. rewrite H3, Hk. destruct (path_of (entry_obj e)) as [p|]; [|tauto].
      destruct (in_dec string_dec p (ODict.keys nodes)); cbn.
      * split; [tauto|]. intros [?|[->|?]]; auto.
      * rewrite in_app_iff. cbn. tauto.
    + intros Hall. rewrite H4; rewrite Hk;
        destruct (path_of (entry_obj e)) as [p|]; auto;
        destruct (in_dec string_dec p (ODict.keys nodes)) as [Hin|Hin].
      * exfalso. apply NoDup_app in Hall as (_ & Hdisj & _).
        apply (Hdisj p); [apply list_elem_of_In, Hin | left].
      * cbn. rewrite <- app_assoc. reflexivity.
      * exfalso. apply NoDup_app in Hall as (_ & Hdisj & _).
        apply (Hdisj p); [apply list_elem_of_In, Hin | left].
      * rewrite <- app_assoc. exact Hall.
Qed.

Lemma index_nodes_spec objects :
  NoDup (ODict.keys (index_nodes objects))
  /\ (forall k n, ODict.get k (index_nodes objects) = Some n -> fresh_node k n)
  /\ (forall k, In k (ODict.keys (index_nodes objects)) <-> In k (record_paths objects))
  /\ (NoDup (record_paths objects) ->
      ODict.keys (index_nodes objects) = record_paths objects).
Proof.
  destruct (index_fold_invariant objects []) as (H1 & H2 & H3 & H4).
  - constructor.
  - intros k n [=].
  - split; [assumption|]. split; [assumption|]. split; [|exact H4].
    intros k. rewrite H3. cbn. tauto.
Qed.
(** ** The store after the second loop *)

Lemma existsb_eqb_In x (l : list string) :
  existsb (String.eqb x) l = true <-> In x l.
Proof.
  rewrite existsb_exists. split.
  - intros (y & Hy & ->%String.eqb_eq). assumption.
  - intros H. exists x. split; [assumption | apply String.eqb_refl].
Qed.

Lemma link_fold_spec P : forall roots heap,
  exists heap',
    fold_left link_step P (roots, heap) =
      (roots ++ List.filter (fun p => negb (has_parent (ODict.keys heap) p)) P, heap')
    /\ ODict.keys heap' = ODict.keys heap
    /\ forall q n, ODict.get q heap = Some n ->
         ODict.get q heap' =
           Some (mk_hnode (h_info n) (h_children n ++ List.filter (child_of q) P)).
Proof.
  induction P as [|p P IH]; intros roots heap.
  - exists heap. cbn. rewrite app_nil_r. split; [reflexivity|]. split; [reflexivity|].
    intros q [i cs] Hq. cbn. rewrite app_nil_r. assumption.
  - cbn [fold_left List.filter]. unfold link_step at 2, has_parent at 1.
    destruct (PyStr.contains slash p) eqn:Hslash; cbn [andb negb].
    + destruct (ODict.get (PyStr.rsplit_head slash p) heap) as [parent|] eqn:Hpar.
      * assert (Hin : In (PyStr.rsplit_head slash p) (ODict.keys heap))
          by (apply odict_get_In; eauto).
        destruct (IH roots (ODict.set (PyStr.rsplit_head slash p)
                              (mk_hnode (h_info parent) (h_children parent ++ [p])) heap))
          as (heap' & Hfold & Hkeys & Hget).
        rewrite odict_keys_set_In in Hfold, Hkeys by assumption.
        exists heap'. rewrite (proj2 (existsb_eqb_In _ _) Hin). cbn [negb].
        split; [exact Hfold|]. split; [exact Hkeys|].
        intros q n Hq. unfold child_of at 1. rewrite Hslash. cbn [andb].
        destruct (String.eqb_spec (PyStr.rsplit_head slash p) q) as [<-|Hne].
        -- rewrite (Hget _ _ (odict_get_set_eq _ _ _)). cbn.
           rewrite Hpar in Hq. injection Hq as <-. rewrite <- app_assoc. reflexivity.
        -- apply Hget. rewrite odict_get_set_ne by congruence. assumption.
      * assert (Hnin : existsb (String.eqb (PyStr.rsplit_head slash p)) (ODict.keys heap) = false).
        { apply not_true_is_false. rewrite existsb_eqb_In. apply odict_get_None, Hpar. }
        rewrite Hnin. cbn [negb].
        destruct (IH (roots ++ [p]) heap) as (heap' & Hfold & Hkeys & Hget).
        exists heap'. rewrite Hfold, <- app_assoc. split; [reflexivity|].
        split; [exact Hkeys|].
        intros q n Hq. rewrite (Hget _ _ Hq). unfold child_of at 2. rewrite Hslash. cbn [andb].
        destruct (String.eqb_spec (PyStr.rsplit_head slash p) q) as [<-|Hne]; [|reflexivity].
        rewrite Hpar in Hq. discriminate.
    + destruct (IH (roots ++ [p]) heap) as (heap' & Hfold & Hkeys & Hget).
      exists heap'. rewrite Hfold, <- app_assoc. split; [reflexivity|].
      split; [exact Hkeys|].
      intros q n Hq. rewrite (Hget _ _ Hq). unfold child_of at 2. rewrite Hslash. reflexivity.
Qed.

(** What the two loops of [_build_tree] leave behind: the roots are the keys
    without a parent among the keys, in key order, and the children of a key
    are the keys that name it as parent, in key order. *)
Lemma link_nodes_spec nodes :
  (forall k n, ODict.get k nodes = Some n -> fresh_node k n) ->
  exists heap,
    link_nodes nodes =
      (List.filter (fun p => negb (has_parent (ODict.keys nodes) p)) (ODict.keys nodes), heap)
    /\ ODict.keys heap = ODict.keys nodes
    /\ forall q, In q (ODict.keys nodes) ->
         exists i, ODict.get q heap =
                     Some (mk_hnode i (List.filter (child_of q) (ODict.keys nodes)))
                   /\ hierarchyPath (n_object i) = Some q.
Proof.
  intros Hfresh. unfold link_nodes.
  destruct (link_fold_spec (ODict.keys nodes) [] nodes) as (heap & Hfold & Hkeys & Hget).
  exists heap. split; [exact Hfold|]. split; [exact Hkeys|].
  intros q [n Hn]%odict_get_In. destruct (Hfresh _ _ Hn) as [Hpath Hleaf].
  exists (h_info n). rewrite (Hget _ _ Hn), Hleaf. split; [reflexivity | assumption].
Qed.
(** ** Reading the store back as a forest *)

Lemma count_subtree_unfold i cs :
  _count_subtree (Node i cs) = 1 + sum_list_with _count_subtree cs.
Proof.
  cbn [_count_subtree]. generalize 1 as acc.
  induction cs as [|c cs IH]; intros acc; cbn; [lia|].
  rewrite IH. lia.
Qed.

(** A larger bound reads the same tree. *)
Lemma reify_mono heap n : forall q t,
  reify n heap q = Some t -> reify (S n) heap q = Some t.
Proof.
  induction n as [|n IH]; intros q t; [discriminate|].
  cbn [reify]. destruct (ODict.get q heap) as [node|]; [|discriminate].
  destruct (mapM (reify n heap) (h_children node)) as [cs|] eqn:Hcs; [|discriminate].
  intros [= <-].
  assert (Hcs' : mapM (reify (S n) heap) (h_children node) = Some cs).
  { apply mapM_Some. apply mapM_Some in Hcs.
    eapply Forall2_impl; [exact Hcs|]. intros c t Hc. apply IH, Hc. }
  cbn [reify] in Hcs'. rewrite Hcs'. reflexivity.
Qed.

Lemma child_of_longer q c :
  child_of q c = true -> String.length q < String.length c.
Proof.
  unfold child_of. intros [Hslash <-%String.eqb_eq]%andb_true_iff.
  apply rsplit_head_shorter, Hslash.
Qed.

Lemma sum_list_with_ext_in {A} (f g : A -> nat) l :
  (forall x, In x l -> f x = g x) -> sum_list_with f l = sum_list_with g l.
Proof.
  induction l as [|x l IH]; intros H; cbn; [reflexivity|].
  rewrite (H x), IH; auto using in_eq, in_cons.
Qed.

Lemma sum_list_with_succ {A} (h : A -> nat) l :
  sum_list_with (fun x => S (h x)) l = length l + sum_list_with h l.
Proof. induction l as [|x l IH]; cbn; [reflexivity|]. rewrite IH. lia. Qed.

Lemma sum_list_with_filter_split {A} (g : A -> nat) (f : A -> bool) l :
  sum_list_with g l =
    sum_list_with g (List.filter f l)
    + sum_list_with g (List.filter (fun x => negb (f x)) l).
Proof.
  induction l as [|x l IH]; cbn; [reflexivity|].
  destruct (f x); cbn; lia.
Qed.

(** Each path has at most one parent among duplicate-free keys. *)
Lemma sum_child_indicator (keys : list string) c (x : nat) :
  NoDup keys ->
  sum_list_with (fun q => if child_of q c then x else 0) keys =
    if has_parent keys c then x else 0.
Proof.
  unfold child_of, has_parent. destruct (PyStr.contains slash c); cbn [andb].
  - induction 1 as [|q keys Hq Hnd IH]; cbn; [reflexivity|].
    destruct (String.eqb_spec (PyStr.rsplit_head slash c) q) as [Heq|Hne]; cbn.
    + rewrite IH.
      destruct (existsb (String.eqb (PyStr.rsplit_head slash c)) keys) eqn:Hex; [|lia].
      apply existsb_eqb_In, list_elem_of_In in Hex. rewrite Heq in Hex. contradiction.
    + exact IH.
  - intros _. induction keys as [|q keys IH]; cbn; [reflexivity | exact IH].
Qed.

(** Summing over the children of every key visits the keys that have a
    parent, each once. *)
Lemma sum_over_children (g : string -> nat) (keys l : list string) :
  NoDup keys ->
  sum_list_with (fun q => sum_list_with g (List.filter (child_of q) l)) keys =
    sum_list_with g (List.filter (has_parent keys) l).
Proof.
  intros Hnd. induction l as [|c l IH].
  - cbn. induction keys as [|q keys IHk]; cbn; [reflexivity|].
    apply IHk. apply NoDup_cons in Hnd. tauto.
  - cbn [List.filter].
    transitivity
      (sum_list_with (fun q => if child_of q c then g c else 0) keys
       + sum_list_with (fun q => sum_list_with g (List.filter (child_of q) l)) keys).
    + clear. induction keys as [|q keys IHk]; cbn; [reflexivity|].
      rewrite IHk. destruct (child_of q c); cbn; lia.
    + rewrite IH, sum_child_indicator by assumption.
      destruct (has_parent keys c); cbn; lia.
Qed.

Section Store.

Variable heap : list (string * hnode).
Hypothesis keys_nodup : NoDup (ODict.keys heap).
Hypothesis heap_linked :
  forall q, In q (ODict.keys heap) ->
    exists i, ODict.get q heap =
                Some (mk_hnode i (List.filter (child_of q) (ODict.keys heap)))
              /\ hierarchyPath (n_object i) = Some q.

(** With a bound above the longest path, every key reads back as a tree. *)
Lemma reify_total n : forall q,
  In q (ODict.keys heap) ->
  max_list (map String.length (ODict.keys heap)) < n + String.length q ->
  is_Some (reify n heap q).
Proof.
  induction n as [|n IH]; intros q Hq Hlen.
  - exfalso. assert (String.length q <= max_list (map String.length (ODict.keys heap))).
    { apply max_list_elem_of_le, list_elem_of_In, in_map, Hq. }
    lia.
  - cbn [reify]. destruct (heap_linked q Hq) as (i & -> & _). cbn [h_children h_info].
    assert (Hcs : is_Some (mapM (reify n heap) (List.filter (child_of q) (ODict.keys heap)))).
    { apply mapM_is_Some_2, Forall_forall. intros c [Hc Hchild]%list_elem_of_In%filter_In.
      apply IH; [assumption|]. apply child_of_longer in Hchild. lia. }
    destruct Hcs as [cs ->]. eauto.
Qed.


Lemma subtree_unfold q :
  In q (ODict.keys heap) ->
  exists i cs,
    subtree heap q = Some (Node i cs)
    /\ mapM (subtree heap) (List.filter (child_of q) (ODict.keys heap)) = Some cs
    /\ hierarchyPath (n_object i) = Some q.
Proof.
  intros Hq. unfold subtree.
  destruct (reify_total (tree_fuel heap) q Hq) as [t Ht]; [unfold tree_fuel; lia|].
  assert (Ht' := reify_mono _ _ _ _ Ht). rewrite Ht.
  cbn [reify] in Ht'. destruct (heap_linked q Hq) as (i & Hget & Hpath).
  rewrite Hget in Ht'. cbn [h_children h_info] in Ht'.
  destruct (mapM _ _) as [cs|] eqn:Hcs in Ht'; [|discriminate].
  injection Ht' as <-. exists i, cs. auto.
Qed.

Lemma size_of_trees qs ts :
  mapM (subtree heap) qs = Some ts ->
  sum_list_with (subtree_size heap) qs = sum_list_with _count_subtree ts.
Proof.
  intros H%mapM_Some. induction H as [|q t qs ts Hq _ IH]; [reflexivity|].
  change (subtree_size heap q + sum_list_with (subtree_size heap) qs =
          _count_subtree t + sum_list_with _count_subtree ts).
  rewrite IH. unfold subtree_size. rewrite Hq. reflexivity.
Qed.

Lemma subtree_size_unfold q :
  In q (ODict.keys heap) ->
  subtree_size heap q = 1 + sum_list_with (subtree_size heap) (List.filter (child_of q) (ODict.keys heap)).
Proof.
  intros Hq. destruct (subtree_unfold q Hq) as (i & cs & Ht & Hcs & _).
  unfold subtree_size at 1. rewrite Ht. cbn [from_option].
  rewrite count_subtree_unfold, (size_of_trees _ _ Hcs). reflexivity.
Qed.

(** The subtrees of the roots cover every key exactly once. *)
Lemma root_sizes_cover :
  sum_list_with (subtree_size heap)
    (List.filter (fun p => negb (has_parent (ODict.keys heap) p)) (ODict.keys heap))
  = length (ODict.keys heap).
Proof.
  assert (Hall :
    sum_list_with (subtree_size heap) (ODict.keys heap) =
      length (ODict.keys heap)
      + sum_list_with (subtree_size heap) (List.filter (has_parent (ODict.keys heap)) (ODict.keys heap))).
  { rewrite <- (sum_over_children (subtree_size heap)) by assumption.
    rewrite <- (sum_list_with_succ
                  (fun q => sum_list_with (subtree_size heap) (List.filter (child_of q) (ODict.keys heap)))).
    apply sum_list_with_ext_in, subtree_size_unfold. }
  rewrite (sum_list_with_filter_split (subtree_size heap) (has_parent (ODict.keys heap))) in Hall.
  lia.
Qed.

End Store.
(** ** [_build_tree] as a whole *)

Lemma record_paths_length objects :
  length (record_paths objects) = length (List.filter has_path objects).
Proof.
  induction objects as [|e objects IH]; [reflexivity|].
  rewrite record_paths_cons. cbn [List.filter]. unfold has_path, path_of, PyStr.truthy.
  destruct (hierarchyPath (entry_obj e)) as [p|]; [|exact IH].
  destruct (String.eqb p ""); cbn; [exact IH | f_equal; exact IH].
Qed.

Lemma subtrees_of_keys heap qs :
  NoDup (ODict.keys heap) ->
  (forall q, In q (ODict.keys heap) ->
     exists i, ODict.get q heap =
                 Some (mk_hnode i (List.filter (child_of q) (ODict.keys heap)))
               /\ hierarchyPath (n_object i) = Some q) ->
  (forall q, In q qs -> In q (ODict.keys heap)) ->
  exists ts, Forall2 (fun q t => subtree heap q = Some t /\ tree_path t = Some q) qs ts.
Proof.
  intros Hnd Hlinked. induction qs as [|q qs IH]; intros Hin.
  - exists []. constructor.
  - destruct IH as [ts Hts]; [intros; apply Hin; right; assumption|].
    destruct (subtree_unfold heap Hlinked q) as (i & cs & Ht & _ & Hp);
      [apply Hin; left; reflexivity|].
    exists (Node i cs :: ts). constructor; [split; assumption | assumption].
Qed.

(** [_build_tree] always returns: the bound it reads the store with is
    large enough. Its roots are the trees below the keys without a parent,
    in key order, and their sizes add up to the number of keys. *)
Lemma build_tree_spec objects :
  exists heap roots nodes,
    _build_tree objects = Some (roots, nodes)
    /\ NoDup (ODict.keys heap)
    /\ (forall k, In k (ODict.keys heap) <-> In k (record_paths objects))
    /\ (NoDup (record_paths objects) -> ODict.keys heap = record_paths objects)
    /\ Forall2 (fun q t => subtree heap q = Some t /\ tree_path t = Some q)
         (List.filter (fun p => negb (has_parent (ODict.keys heap) p)) (ODict.keys heap))
         roots
    /\ sum_list_with _count_subtree roots = length (ODict.keys heap).
Proof.
  destruct (index_nodes_spec objects) as (Hnd & Hfresh & Hkeys & Hexact).
  destruct (link_nodes_spec _ Hfresh) as (heap & Hlink & Hk & Hlinked).
  rewrite <- Hk in Hnd, Hkeys, Hexact, Hlinked, Hlink.
  destruct (subtrees_of_keys heap
              (List.filter (fun p => negb (has_parent (ODict.keys heap) p)) (ODict.keys heap))
              Hnd Hlinked) as [roots Hroots].
  { intros q [Hq _]%filter_In. exact Hq. }
  destruct (subtrees_of_keys heap (ODict.keys heap) Hnd Hlinked) as [ts Hts]; [auto|].
  assert (Hroots' : mapM (subtree heap)
            (List.filter (fun p => negb (has_parent (ODict.keys heap) p)) (ODict.keys heap))
          = Some roots).
  { apply mapM_Some. eapply Forall2_impl; [exact Hroots|]. cbn. tauto. }
  exists heap, roots, (zip (ODict.keys heap) ts).
  split; [|split; [assumption|]; split; [assumption|]; split; [assumption|];
           split; [assumption|]].
  - unfold _build_tree. rewrite Hlink, Hroots'.
    assert (Hnodes : mapM (fun k => pair k <$> subtree heap k) (ODict.keys heap)
                     = Some (zip (ODict.keys heap) ts)).
    { apply mapM_Some. clear -Hts. induction Hts as [|q t qs ts [Hq _] _ IH].
      - constructor.
      - change (zip (q :: qs) (t :: ts)) with ((q, t) :: zip qs ts).
        constructor; [|exact IH]. rewrite Hq. reflexivity. }
    rewrite Hnodes. reflexivity.
  - rewrite <- (size_of_trees heap _ _ Hroots').
    apply root_sizes_cover; assumption.
Qed.

Lemma Forall2_paths {heap} qs ts :
  Forall2 (fun q t => subtree heap q = Some t /\ tree_path t = Some q) qs ts ->
  map tree_path ts = map Some qs.
Proof.
  induction 1 as [|q t qs ts [_ Hp] _ IH]; cbn; [reflexivity|]. rewrite Hp, IH. reflexivity.
Qed.

(** C6: when the non-empty paths of the records are pairwise different,
    [_build_tree] returns roots whose [_count_subtree] values add up to the
    number of records with a non-empty path. *)
Theorem C6_root_sizes_cover_records (objects : list entry) :
  NoDup (record_paths objects) ->
  exists roots nodes,
    _build_tree objects = Some (roots, nodes)
    /\ sum_list_with _count_subtree roots = length (List.filter has_path objects).
Proof.
  intros Huniq.
  destruct (build_tree_spec objects) as (heap & roots & nodes & Hb & _ & _ & Hk & _ & Hsum).
  exists roots, nodes. split; [exact Hb|].
  rewrite Hsum, (Hk Huniq). apply record_paths_length.
Qed.
Lemma C6_witness :
  exists roots nodes,
    _build_tree Sample.chain = Some (roots, nodes)
    /\ sum_list_with _count_subtree roots = length (List.filter has_path Sample.chain).
Proof.
  apply (C6_root_sizes_cover_records Sample.chain).
  apply (bool_decide_unpack _). vm_compute. exact I.
Defined.

(** C8: a path with a separator whose parent path is the path of no record
    gets a root of its own: [_build_tree] returns, and one of its roots
    carries that path. The single record [X/Y] gives exactly one root, with
    path [X/Y]. *)
Theorem C8_orphan_becomes_root :
  (forall (objects : list entry) (p : string),
      In p (record_paths objects) ->
      PyStr.contains slash p = true ->
      ~ In (PyStr.rsplit_head slash p) (record_paths objects) ->
      exists roots nodes,
        _build_tree objects = Some (roots, nodes)
        /\ In (Some p) (map tree_path roots))
  /\ (fun r => map tree_path (fst r)) <$> _build_tree Sample.orphan
     = Some [Some "X/Y"].
Proof.
  split; [|reflexivity].
  intros objects p Hp Hslash Hnopar.
  destruct (build_tree_spec objects)
    as (heap & roots & nodes & Hb & _ & Hkeys & _ & Hroots & _).
  exists roots, nodes. split; [exact Hb|].
  rewrite (Forall2_paths _ _ Hroots). apply in_map, filter_In.
  split; [apply Hkeys, Hp|].
  unfold has_parent. rewrite Hslash. cbn [andb].
  destruct (existsb _ _) eqn:Hex; [|reflexivity].
  apply existsb_eqb_In, Hkeys in Hex. contradiction.
Qed.

Lemma C8_witness :
  exists roots nodes,
    _build_tree Sample.orphan = Some (roots, nodes)
    /\ In (Some "X/Y") (map tree_path roots).
Proof.
  apply (proj1 C8_orphan_becomes_root Sample.orphan "X/Y").
  - left. reflexivity.
  - reflexivity.
  - vm_compute. intros [H|[]]. discriminate H.
Defined.

(** ** Theorems: relationship deriver *)

Lemma row_step_invariant path_to_ref cond (P : row -> Prop) :
  (forall parent child child_path,
      path_of child = Some child_path ->
      PyStr.contains slash child_path = true ->
      PyStr.truthy (globalId child) = true ->
      path_to_ref !! PyStr.rsplit_head slash child_path = Some parent ->
      PyStr.truthy (globalId parent) = true ->
      P (mk_row parent "part_of" child "1.0" [] "Scene" cond)) ->
  forall objects st,
    Forall P (fst st) ->
    Forall P (fst (fold_left (row_step path_to_ref cond) objects st)).
Proof.
  intros HP. induction objects as [|e objects IH]; intros st Hst; [exact Hst|].
  cbn [fold_left]. apply IH. unfold row_step.
  destruct (path_of (entry_obj e)) as [child_path|] eqn:Hpath; [|exact Hst].
  destruct (PyStr.contains slash child_path) eqn:Hslash; cbn [negb orb]; [|exact Hst].
  destruct (PyStr.truthy (globalId (entry_obj e))) eqn:Hid; cbn [negb]; [|exact Hst].
  destruct (path_to_ref !! PyStr.rsplit_head slash child_path) as [parent|] eqn:Hpar;
    [|exact Hst].
  destruct (PyStr.truthy (globalId parent)) eqn:Hpid; cbn [negb]; [|exact Hst].
  destruct (decide _); [exact Hst|]. cbn [fst].
  apply Forall_app. split; [exact Hst|]. constructor; [|constructor].
  eapply HP; eassumption.
Qed.

(** Every emitted row links a child that has an identity to the parent
    record found for it, which has an identity too. *)
Lemma hierarchy_rows_sound objects cond r :
  In r (_build_hierarchy_rows objects cond) ->
  edge_allowed objects (row_object r) = true
  /\ parent_ref objects (row_object r) = Some (subject r)
  /\ predicate r = "part_of".
Proof.
  unfold _build_hierarchy_rows. intros Hr%list_elem_of_In. revert r Hr.
  apply Forall_forall, row_step_invariant; [|constructor].
  intros parent child child_path Hpath Hslash Hid Hpar Hpid. cbn.
  unfold edge_allowed, parent_ref. rewrite Hpath, Hslash, Hid, Hpar, Hpid. auto.
Qed.

(** C7: on the records [A], [A/B], [A/B/C], [D] with identities [a], [ab],
    [abc], [d] the forest has the two roots [A] and [D], the subtree of [A]
    has size 3, and the rows are exactly the edges (a, ab) and (ab, abc).
    In general no row is emitted for a child without an identity or without
    a parent record that has an identity. *)
Theorem C7_round_trip_and_missing_identity :
  (fun r => map (fun t => (tree_path t, _count_subtree t)) (fst r))
     <$> _build_tree Sample.chain
  = Some [(Some "A", 3); (Some "D", 1)]
  /\ (forall cond,
        map edge_of (_build_hierarchy_rows Sample.chain cond)
        = [(Some "a", "part_of", Some "ab"); (Some "ab", "part_of", Some "abc")])
  /\ (forall (objects : list entry) (cond : string) (child : obj),
        edge_allowed objects child = false ->
        forall r, In r (_build_hierarchy_rows objects cond) -> row_object r <> child).
Proof.
  split; [reflexivity|]. split; [intros cond; reflexivity|].
  intros objects cond child Hno r Hr <-.
  apply hierarchy_rows_sound in Hr as [Hyes _]. congruence.
Qed.

Lemma C7_witness :
  Forall (fun r => row_object r <> entry_obj (Sample.record "D" (Some "d")))
         (_build_hierarchy_rows Sample.chain "Unity Development").
Proof.
  apply List.Forall_forall.
  apply (proj2 (proj2 C7_round_trip_and_missing_identity)
           Sample.chain "Unity Development" (entry_obj (Sample.record "D" (Some "d")))).
  reflexivity.
Defined.
(** ** Facts about the stable sort *)

Section SortBy.

Context {A : Type} (le : A -> A -> bool).

Lemma sort_by_cons x l : sort_by le (x :: l) = insert_by le x (sort_by le l).
Proof. reflexivity. Qed.

Lemma insert_by_perm x l : Permutation (insert_by le x l) (x :: l).
Proof.
  induction l as [|y l IH]; cbn; [reflexivity|].
  destruct (le x y); [reflexivity|].
  rewrite IH. apply perm_swap.
Qed.

Lemma sort_by_perm l : Permutation (sort_by le l) l.
Proof.
  induction l as [|x l IH]; [reflexivity|].
  rewrite sort_by_cons, insert_by_perm, IH. reflexivity.
Qed.

Lemma sort_by_In x l : In x (sort_by le l) <-> In x l.
Proof.
  split; apply Permutation_in; [|symmetry]; apply sort_by_perm.
Qed.

Lemma sort_by_length l : length (sort_by le l) = length l.
Proof. apply Permutation_length, sort_by_perm. Qed.

Lemma sort_by_sum (g : A -> nat) l :
  sum_list_with g (sort_by le l) = sum_list_with g l.
Proof. rewrite sort_by_perm. reflexivity. Qed.

(** An element goes in front of a list it does not exceed the head of. *)
Lemma insert_by_head x l :
  HdRel (fun a b => le a b = true) x l -> insert_by le x l = x :: l.
Proof. intros [|y l' Hxy]; cbn; [reflexivity|]. rewrite Hxy. reflexivity. Qed.

(** Sorting a list that is in order changes nothing. *)
Lemma sort_by_sorted_id l :
  Sorted (fun a b => le a b = true) l -> sort_by le l = l.
Proof.
  induction 1 as [|x l _ IH Hhd]; [reflexivity|].
  rewrite sort_by_cons, IH. apply insert_by_head, Hhd.
Qed.

Hypothesis le_total : forall a b, le a b = true \/ le b a = true.

Lemma insert_by_sorted x l :
  Sorted (fun a b => le a b = true) l ->
  Sorted (fun a b => le a b = true) (insert_by le x l).
Proof.
  induction 1 as [|y l Hs IH Hhd]; cbn.
  - repeat constructor.
  - destruct (le x y) eqn:Hxy.
    + repeat constructor; assumption.
    + constructor; [exact IH|].
      assert (Hyx : le y x = true) by (destruct (le_total x y); congruence).
      destruct Hhd as [|z l' Hyz]; cbn.
      * constructor. exact Hyx.
      * destruct (le x z); constructor; assumption.
Qed.

Lemma sort_by_sorted l : Sorted (fun a b => le a b = true) (sort_by le l).
Proof.
  induction l as [|x l IH]; [constructor|].
  rewrite sort_by_cons. apply insert_by_sorted, IH.
Qed.

End SortBy.

(** A map that respects the order commutes with the sort. *)
Lemma sort_by_map {A B} (le : A -> A -> bool) (le' : B -> B -> bool) (f : A -> B) l :
  (forall a b, le' (f a) (f b) = le a b) ->
  sort_by le' (map f l) = map f (sort_by le l).
Proof.
  intros Hf. induction l as [|x l IH]; [reflexivity|].
  cbn [map]. rewrite !sort_by_cons, IH. generalize (sort_by le l) as s. clear IH.
  induction s as [|y s IH]; cbn; [reflexivity|].
  rewrite Hf. destruct (le x y); cbn; [reflexivity|]. rewrite IH. reflexivity.
Qed.

Lemma path_le_total a b : path_le a b = true \/ path_le b a = true.
Proof. apply String.leb_total. Qed.

(** ** Theorems: tree sorter *)

Lemma tree_forall_ind (P : tree -> Prop) :
  (forall i cs, Forall P cs -> P (Node i cs)) -> forall t, P t.
Proof.
  intros H. fix IH 1. intros [i cs]. apply H.
  induction cs as [|c cs IHcs]; constructor; [apply IH | exact IHcs].
Qed.

Lemma sort_below_info t : info_of (sort_below t) = info_of t.
Proof. destruct t; reflexivity. Qed.

Lemma sort_below_path_le a b :
  path_le (sort_below a) (sort_below b) = path_le a b.
Proof. unfold path_le, path_key. rewrite !sort_below_info. reflexivity. Qed.

Lemma sort_below_tree_path t : tree_path (sort_below t) = tree_path t.
Proof. unfold tree_path. rewrite sort_below_info. reflexivity. Qed.

(** Sorting moves nodes around but keeps every one of them. *)
Lemma sort_below_count t : _count_subtree (sort_below t) = _count_subtree t.
Proof.
  induction t as [i cs IH] using tree_forall_ind.
  cbn [sort_below]. rewrite !count_subtree_unfold, sort_by_sum. f_equal.
  induction IH as [|c cs Hc _ IHcs]; cbn; [reflexivity|]. rewrite Hc, IHcs. reflexivity.
Qed.

(** [_sort_tree] of orchestrate_mapping.py in the shape of its source: sort
    the level, then sort below every node of it. *)
Lemma orchestrate_sort_tree_unfold nodes :
  OrchestrateMapping._sort_tree nodes =
    map (fun node => Node (info_of node)
                          (OrchestrateMapping._sort_tree (children_of node)))
        (sort_by path_le nodes).
Proof.
  unfold OrchestrateMapping._sort_tree at 1.
  rewrite (sort_by_map path_le path_le sort_below) by apply sort_below_path_le.
  apply map_ext. intros [i cs]. reflexivity.
Qed.

(** [_sort_tree] of scene_outline.py in the shape of its source: for every
    node of the level, sort its children, then recurse into them. *)
Lemma scene_outline_sort_tree_unfold nodes :
  SceneOutline._sort_tree nodes =
    map (fun node => Node (info_of node)
                          (SceneOutline._sort_tree (sort_by path_le (children_of node))))
        nodes.
Proof.
  unfold SceneOutline._sort_tree. apply map_ext. intros [i cs]. cbn [sort_below info_of children_of].
  rewrite (sort_by_map path_le path_le sort_below) by apply sort_below_path_le.
  reflexivity.
Qed.

(** The two sorters differ by one sort of the top level. *)
Lemma sort_tree_top_level nodes :
  OrchestrateMapping._sort_tree nodes = sort_by path_le (SceneOutline._sort_tree nodes).
Proof. reflexivity. Qed.

(** Below the top level both leave every child list in ascending order. *)
Lemma sort_below_ordered t : ordered_below (sort_below t).
Proof.
  induction t as [i cs IH] using tree_forall_ind. cbn [sort_below].
  constructor.
  - apply sort_by_sorted, path_le_total.
  - apply Forall_forall. intros c Hc%list_elem_of_In%sort_by_In%in_map_iff.
    destruct Hc as (c0 & <- & Hc0). rewrite Forall_forall in IH.
    apply IH, list_elem_of_In, Hc0.
Qed.

Lemma orchestrate_sort_tree_ordered nodes :
  ordered_forest (OrchestrateMapping._sort_tree nodes).
Proof.
  split.
  - apply sort_by_sorted, path_le_total.
  - apply Forall_forall. intros c Hc%list_elem_of_In%sort_by_In%in_map_iff.
    destruct Hc as (c0 & <- & _). apply sort_below_ordered.
Qed.

Lemma scene_outline_sort_tree_below nodes :
  Forall ordered_below (SceneOutline._sort_tree nodes).
Proof.
  apply Forall_forall. intros c Hc%list_elem_of_In%in_map_iff.
  destruct Hc as (c0 & <- & _). apply sort_below_ordered.
Qed.

(** The two sorters agree exactly on the forests whose roots, once sorted
    below, are already in order. *)
Lemma sort_trees_agree_iff nodes :
  SceneOutline._sort_tree nodes = OrchestrateMapping._sort_tree nodes
  <-> Sorted (fun a b => path_le a b = true) (SceneOutline._sort_tree nodes).
Proof.
  rewrite sort_tree_top_level. split.
  - intros ->. apply sort_by_sorted, path_le_total.
  - intros Hs. symmetry. apply sort_by_sorted_id, Hs.
Qed.

(** C4, at the failing input: for the records [B], [A] the tree builder
    returns the roots in record order; [_sort_tree] of scene_outline.py
    leaves them as [B], [A], which is not ascending, while [_sort_tree] of
    orchestrate_mapping.py returns [A], [B]. *)
Theorem C4_scene_outline_keeps_root_order :
  (fun r => map tree_path (SceneOutline._sort_tree (fst r)))
     <$> _build_tree Sample.unordered = Some [Some "B"; Some "A"]
  /\ (fun r => map tree_path (OrchestrateMapping._sort_tree (fst r)))
     <$> _build_tree Sample.unordered = Some [Some "A"; Some "B"]
  /\ ~ (forall roots nodes,
          _build_tree Sample.unordered = Some (roots, nodes) ->
          SceneOutline._sort_tree roots = OrchestrateMapping._sort_tree roots
          /\ ordered_forest (SceneOutline._sort_tree roots)).
Proof.
  split; [reflexivity|]. split; [reflexivity|].
  intros H.
  destruct (_build_tree Sample.unordered) as [[roots nodes]|] eqn:Hb;
    [|vm_compute in Hb; discriminate].
  destruct (H roots nodes eq_refl) as [Heq _].
  vm_compute in Hb. injection Hb as <- <-.
  vm_compute in Heq. discriminate.
Qed.
(** ** Theorems: diagram partitioner *)

Lemma under_root_empty root_path :
  root_path <> "" -> under_root "" root_path = false.
Proof.
  intros Hne. unfold under_root, PyStr.startswith.
  destruct root_path as [|a s]; [contradiction | reflexivity].
Qed.

Lemma has_path_false_path e :
  has_path e = false -> PyStr.or_else (hierarchyPath (entry_obj e)) "" = "".
Proof.
  unfold has_path, PyStr.truthy, PyStr.or_else.
  destruct (hierarchyPath (entry_obj e)) as [p|]; [|reflexivity].
  destruct (String.eqb_spec p ""); [reflexivity | discriminate].
Qed.

Lemma tag_member_pathless gid diagrams :
  roots_nonempty diagrams -> tag_member gid "" diagrams = diagrams.
Proof.
  induction 1 as [|d ds Hd _ IH]; cbn; [reflexivity|].
  replace (existsb (under_root "") (rootPaths d)) with false; [rewrite IH; reflexivity|].
  symmetry. apply not_true_is_false. intros (rp & Hin & Hu)%existsb_exists.
  rewrite Forall_forall in Hd. rewrite under_root_empty in Hu; [discriminate|].
  apply Hd, list_elem_of_In, Hin.
Qed.

(** A record without a path changes no diagram. *)
Lemma member_step_pathless diagrams e :
  has_path e = false -> roots_nonempty diagrams -> member_step diagrams e = diagrams.
Proof.
  intros Hp Hne. unfold member_step. rewrite (has_path_false_path e Hp).
  destruct (PyStr.truthy _); [apply tag_member_pathless, Hne | reflexivity].
Qed.

Lemma tag_member_roots gid path diagrams :
  map rootPaths (tag_member gid path diagrams) = map rootPaths diagrams.
Proof.
  induction diagrams as [|d ds IH]; cbn; [reflexivity|].
  destruct (existsb _ _); cbn; [reflexivity | f_equal; exact IH].
Qed.

Lemma tag_member_counts gid path diagrams :
  map nodeCount (tag_member gid path diagrams) = map nodeCount diagrams.
Proof.
  induction diagrams as [|d ds IH]; cbn; [reflexivity|].
  destruct (existsb _ _); cbn; [reflexivity | f_equal; exact IH].
Qed.

Lemma roots_nonempty_map diagrams :
  roots_nonempty diagrams <->
  Forall (Forall (fun root_path => root_path <> "")) (map rootPaths diagrams).
Proof. unfold roots_nonempty. rewrite Forall_map. reflexivity. Qed.

Lemma member_fold_roots objects diagrams :
  map rootPaths (fold_left member_step objects diagrams) = map rootPaths diagrams.
Proof.
  revert diagrams. induction objects as [|e objects IH]; intros ds; [reflexivity|].
  cbn [fold_left]. rewrite IH. unfold member_step.
  destruct (PyStr.truthy _); [apply tag_member_roots | reflexivity].
Qed.

Lemma member_fold_counts objects diagrams :
  map nodeCount (fold_left member_step objects diagrams) = map nodeCount diagrams.
Proof.
  revert diagrams. induction objects as [|e objects IH]; intros ds; [reflexivity|].
  cbn [fold_left]. rewrite IH. unfold member_step.
  destruct (PyStr.truthy _); [apply tag_member_counts | reflexivity].
Qed.

Lemma member_fold_pathless l1 l2 e diagrams :
  has_path e = false -> roots_nonempty diagrams ->
  fold_left member_step (l1 ++ e :: l2) diagrams = fold_left member_step (l1 ++ l2) diagrams.
Proof.
  intros Hp Hne. rewrite !fold_left_app. cbn [fold_left]. f_equal.
  apply member_step_pathless; [exact Hp|].
  apply roots_nonempty_map. rewrite member_fold_roots. apply roots_nonempty_map, Hne.
Qed.

Lemma fresh_diagrams_spec n :
  Forall (fun d => rootPaths d = [] /\ objectIds d = [] /\ nodeCount d = 0)
         (fresh_diagrams n).
Proof.
  unfold fresh_diagrams. apply Forall_map, Forall_forall. intros i _. cbn. auto.
Qed.

Lemma fresh_diagrams_length n : length (fresh_diagrams n) = Z.to_nat n.
Proof. unfold fresh_diagrams. rewrite length_map, length_seq. reflexivity. Qed.

(** The first loop keeps the truthy root paths, in order. *)
Lemma collect_roots_fst roots : forall st,
  fst (fold_left collect_root roots st) = fst st ++ root_paths_of roots.
Proof.
  induction roots as [|r roots IH]; intros st; cbn [fold_left].
  - rewrite app_nil_r. reflexivity.
  - rewrite IH. unfold collect_root, root_paths_of. cbn [omap list_omap].
    destruct (path_of (n_object (info_of r))); cbn; [|reflexivity].
    rewrite <- app_assoc. reflexivity.
Qed.

Lemma root_paths_of_nonempty roots :
  Forall (fun p => p <> "") (root_paths_of roots).
Proof.
  apply Forall_forall. intros p Hp%list_elem_of_In.
  unfold root_paths_of in Hp. apply list_elem_of_In, list_elem_of_omap in Hp.
  destruct Hp as (r & _ & Hr). apply path_of_Some in Hr. tauto.
Qed.

(** The greedy loop hands out root paths and touches nothing else. *)
Lemma assign_fold_invariant root_sizes paths : forall diagrams,
  Forall (fun p => p <> "") paths ->
  roots_nonempty diagrams ->
  Forall (fun d => objectIds d = []) diagrams ->
  roots_nonempty (fold_left (assign_root root_sizes) paths diagrams)
  /\ Forall (fun d => objectIds d = []) (fold_left (assign_root root_sizes) paths diagrams).
Proof.
  induction paths as [|p paths IH]; intros ds Hps Hne Hids; [auto|].
  apply Forall_cons in Hps as [Hp Hps]. cbn [fold_left]. apply IH; [exact Hps| |].
  - unfold assign_root, roots_nonempty in *. rewrite <- (sort_by_perm diagram_le ds) in Hne.
    destruct (sort_by diagram_le ds) as [|target rest]; [constructor|].
    apply Forall_cons in Hne as [Ht Hrest]. constructor; [|exact Hrest].
    cbn. apply Forall_app. split; [exact Ht | repeat constructor; exact Hp].
  - unfold assign_root. rewrite <- (sort_by_perm diagram_le ds) in Hids.
    destruct (sort_by diagram_le ds) as [|target rest]; [constructor|].
    apply Forall_cons in Hids as [Ht Hrest]. constructor; [exact Ht | exact Hrest].
Qed.

(** The diagrams handed to the membership loop own no empty root path and
    have no members yet. *)
Lemma assigned_diagrams_spec root_sizes root_paths n :
  Forall (fun p => p <> "") root_paths ->
  roots_nonempty
    (fold_left (assign_root root_sizes) (sort_by (root_le root_sizes) root_paths)
               (fresh_diagrams n))
  /\ Forall (fun d => objectIds d = [])
       (fold_left (assign_root root_sizes) (sort_by (root_le root_sizes) root_paths)
                  (fresh_diagrams n)).
Proof.
  intros Hps. apply assign_fold_invariant.
  - rewrite sort_by_perm. exact Hps.
  - unfold roots_nonempty. eapply Forall_impl; [apply fresh_diagrams_spec|].
    intros d (-> & _). constructor.
  - eapply Forall_impl; [apply fresh_diagrams_spec|]. intros d (_ & H & _). exact H.
Qed.

(** Every identity in a member list was put there for a record of the scene
    whose path lies under one of the diagram's root paths. *)
Lemma member_fold_provenance objects : forall diagrams (P : string -> Prop),
  roots_nonempty diagrams ->
  (forall e, In e objects -> has_identity e = true -> has_path e = true ->
             P (default "" (globalId (entry_obj e)))) ->
  Forall (fun d => Forall P (objectIds d)) diagrams ->
  Forall (fun d => Forall P (objectIds d)) (fold_left member_step objects diagrams).
Proof.
  induction objects as [|e objects IH]; intros ds P Hne HP Hds; [exact Hds|].
  cbn [fold_left]. apply IH.
  - apply roots_nonempty_map.
    change (member_step ds e) with (fold_left member_step [e] ds).
    rewrite member_fold_roots. apply roots_nonempty_map, Hne.
  - intros e' He'. apply HP. right. exact He'.
  - destruct (has_path e) eqn:Hpath;
      [|rewrite member_step_pathless by assumption; exact Hds].
    unfold member_step. destruct (PyStr.truthy (globalId (entry_obj e))) eqn:Hid; [|exact Hds].
    specialize (HP e (or_introl eq_refl) Hid Hpath). clear -HP Hds.
    induction Hds as [|d ds Hd Hrest IHds]; cbn; [constructor|].
    destruct (existsb _ _); constructor; cbn; auto.
    apply Forall_app. split; [exact Hd | repeat constructor; exact HP].
Qed.

(** C10: a record whose path is empty or absent, whatever its identity,
    contributes to no member list: the diagrams are the same with the
    record in the scene and without it; every identity found in a member
    list belongs to a record that has a path; so, unless another record
    carries the same identity, the identity of the pathless record is in no
    member list. *)
Theorem C10_pathless_record_joins_no_diagram
    (l1 l2 : list entry) (e : entry) (roots : list tree) (diagram_count : Z) :
  has_path e = false ->
  _build_diagrams (l1 ++ e :: l2) roots diagram_count
  = _build_diagrams (l1 ++ l2) roots diagram_count
  /\ (forall d gid,
        In d (_build_diagrams (l1 ++ e :: l2) roots diagram_count) ->
        In gid (objectIds d) ->
        exists e', In e' (l1 ++ l2) /\ has_path e' = true
                   /\ globalId (entry_obj e') = Some gid)
  /\ ((forall e', In e' (l1 ++ l2) -> globalId (entry_obj e') <> globalId (entry_obj e)) ->
      forall d gid,
        In d (_build_diagrams (l1 ++ e :: l2) roots diagram_count) ->
        globalId (entry_obj e) = Some gid ->
        ~ In gid (objectIds d)).
Proof.
  intros Hp.
  assert (Heq : _build_diagrams (l1 ++ e :: l2) roots diagram_count
                = _build_diagrams (l1 ++ l2) roots diagram_count).
  { unfold _build_diagrams. destruct (collect_roots roots) as [root_paths root_sizes] eqn:Hc.
    destruct root_paths as [|p ps]; [reflexivity|].
    apply member_fold_pathless; [exact Hp|].
    apply assigned_diagrams_spec.
    replace (p :: ps) with (fst (collect_roots roots)) by (rewrite Hc; reflexivity).
    unfold collect_roots. rewrite collect_roots_fst. apply root_paths_of_nonempty. }
  assert (Hprov : forall d gid,
            In d (_build_diagrams (l1 ++ e :: l2) roots diagram_count) ->
            In gid (objectIds d) ->
            exists e', In e' (l1 ++ l2) /\ has_path e' = true
                       /\ globalId (entry_obj e') = Some gid).
  { rewrite Heq. clear Heq.
    intros d gid Hd Hg. revert gid Hg. apply List.Forall_forall.
    revert d Hd. apply List.Forall_forall.
    unfold _build_diagrams. destruct (collect_roots roots) as [root_paths root_sizes] eqn:Hc.
    assert (Hps : Forall (fun p => p <> "") root_paths).
    { replace root_paths with (fst (collect_roots roots)) by (rewrite Hc; reflexivity).
      unfold collect_roots. rewrite collect_roots_fst. apply root_paths_of_nonempty. }
    destruct root_paths as [|p ps].
    - eapply Forall_impl; [apply fresh_diagrams_spec|]. intros d (_ & -> & _). constructor.
    - destruct (assigned_diagrams_spec root_sizes (p :: ps)
                  (Z.min (Z.max 1 diagram_count) (Z.of_nat (length (p :: ps)))) Hps)
        as [Hne Hids].
      apply member_fold_provenance; [exact Hne| |].
      + intros e' He' Hid Hpath. exists e'. split; [exact He'|]. split; [exact Hpath|].
        unfold has_identity, PyStr.truthy in Hid.
        destruct (globalId (entry_obj e')); [reflexivity | discriminate].
      + eapply Forall_impl; [exact Hids|]. intros d ->. constructor. }
  split; [exact Heq|]. split; [exact Hprov|].
  intros Huniq d gid Hd Hgid Hin.
  destruct (Hprov d gid Hd Hin) as (e' & He' & _ & Hg').
  apply (Huniq e' He'). congruence.
Qed.

Lemma C10_witness :
  _build_diagrams ([Sample.record "A" (Some "a")] ++ Sample.pathless :: tl Sample.chain)
                  sample_forest 2
  = _build_diagrams ([Sample.record "A" (Some "a")] ++ tl Sample.chain) sample_forest 2.
Proof.
  apply (C10_pathless_record_joins_no_diagram
           [Sample.record "A" (Some "a")] (tl Sample.chain) Sample.pathless
           sample_forest 2).
  reflexivity.
Defined.
(** ** Node counts of the diagrams *)

Lemma sum_nodeCount_map diagrams :
  sum_list_with nodeCount diagrams = sum_list (map nodeCount diagrams).
Proof. induction diagrams as [|d ds IH]; cbn; [reflexivity|]. rewrite IH. reflexivity. Qed.

(** One round of the greedy loop adds the size of the root to the total. *)
Lemma assign_root_sum root_sizes diagrams p :
  diagrams <> [] ->
  assign_root root_sizes diagrams p <> []
  /\ sum_list_with nodeCount (assign_root root_sizes diagrams p)
     = sum_list_with nodeCount diagrams + default 0 (root_sizes !! p).
Proof.
  intros Hne. unfold assign_root.
  rewrite <- (sort_by_sum diagram_le nodeCount diagrams).
  assert (Hlen := sort_by_length diagram_le diagrams).
  destruct (sort_by diagram_le diagrams) as [|target rest].
  - destruct diagrams; [contradiction | discriminate].
  - split; [discriminate|]. cbn. lia.
Qed.

Lemma assign_fold_sum root_sizes paths : forall diagrams,
  diagrams <> [] ->
  sum_list_with nodeCount (fold_left (assign_root root_sizes) paths diagrams)
  = sum_list_with nodeCount diagrams
    + sum_list_with (fun p => default 0 (root_sizes !! p)) paths.
Proof.
  induction paths as [|p paths IH]; intros ds Hne; cbn [fold_left sum_list_with]; [lia|].
  destruct (assign_root_sum root_sizes ds p Hne) as [Hne' Hsum].
  rewrite (IH _ Hne'), Hsum. cbn. lia.
Qed.

Lemma fresh_diagrams_sum n : sum_list_with nodeCount (fresh_diagrams n) = 0.
Proof.
  assert (H := fresh_diagrams_spec n).
  induction H as [|d ds (_ & _ & Hd) _ IH]; cbn; [reflexivity|]. rewrite Hd, IH. reflexivity.
Qed.

(** The node counts of the diagrams add up to the recorded sizes of the
    root paths. *)
Lemma build_diagrams_sum objects roots diagram_count :
  sum_list_with nodeCount (_build_diagrams objects roots diagram_count)
  = sum_list_with (fun p => default 0 (snd (collect_roots roots) !! p))
                  (fst (collect_roots roots)).
Proof.
  unfold _build_diagrams. destruct (collect_roots roots) as [root_paths root_sizes].
  cbn [fst snd]. destruct root_paths as [|p ps].
  - apply fresh_diagrams_sum.
  - rewrite sum_nodeCount_map, member_fold_counts, <- sum_nodeCount_map.
    rewrite assign_fold_sum, fresh_diagrams_sum, sort_by_sum; [reflexivity|].
    intros Hnil. apply (f_equal length) in Hnil. rewrite fresh_diagrams_length in Hnil.
    cbn [length] in Hnil. lia.
Qed.

Lemma root_paths_of_cons r roots :
  root_paths_of (r :: roots) =
    match path_of (n_object (info_of r)) with
    | Some p => p :: root_paths_of roots
    | None => root_paths_of roots
    end.
Proof. reflexivity. Qed.

(** A path that no later root carries keeps the size recorded for it. *)
Lemma collect_roots_keep roots : forall st p,
  ~ In p (root_paths_of roots) ->
  snd (fold_left collect_root roots st) !! p = snd st !! p.
Proof.
  induction roots as [|r roots IH]; intros st p Hp; [reflexivity|].
  cbn [fold_left]. rewrite root_paths_of_cons in Hp. unfold collect_root at 2.
  destruct (path_of (n_object (info_of r))) as [q|].
  - rewrite IH by (intros H; apply Hp; right; exact H). cbn [snd].
    apply lookup_insert_ne. intros ->. apply Hp. left. reflexivity.
  - apply IH, Hp.
Qed.

(** With pairwise different root paths, the size recorded for the path of a
    root is the size of that root. *)
Lemma collect_roots_sizes roots : forall st,
  NoDup (root_paths_of roots) ->
  sum_list_with (fun p => default 0 (snd (fold_left collect_root roots st) !! p))
                (root_paths_of roots)
  = sum_list_with (fun r => match path_of (n_object (info_of r)) with
                            | Some _ => _count_subtree r
                            | None => 0
                            end)
                  roots.
Proof.
  induction roots as [|r roots IH]; intros st Hnd; [reflexivity|].
  cbn [fold_left sum_list_with]. rewrite root_paths_of_cons in *.
  assert (Hst : forall q, path_of (n_object (info_of r)) = Some q ->
                          snd (collect_root st r) !! q = Some (_count_subtree r)).
  { intros q Hq. unfold collect_root. rewrite Hq. cbn [snd]. apply lookup_insert_eq. }
  destruct (path_of (n_object (info_of r))) as [q|].
  - apply NoDup_cons in Hnd as [Hq' Hnd]. cbn [sum_list_with].
    rewrite IH by exact Hnd. f_equal.
    rewrite collect_roots_keep by (rewrite <- list_elem_of_In; exact Hq').
    rewrite (Hst q eq_refl). reflexivity.
  - rewrite IH by exact Hnd. reflexivity.
Qed.

Lemma sum_count_with_paths roots :
  Forall (fun r => is_Some (path_of (n_object (info_of r)))) roots ->
  sum_list_with (fun r => match path_of (n_object (info_of r)) with
                          | Some _ => _count_subtree r
                          | None => 0
                          end)
                roots
  = sum_list_with _count_subtree roots.
Proof.
  induction 1 as [|r roots [p Hp] _ IH]; cbn; [reflexivity|]. rewrite Hp, IH. reflexivity.
Qed.

Lemma record_paths_nonempty objects p : In p (record_paths objects) -> p <> "".
Proof.
  intros Hp%list_elem_of_In%list_elem_of_omap. destruct Hp as (e & _ & He).
  apply path_of_Some in He. tauto.
Qed.

Lemma tree_path_of t q :
  tree_path t = Some q -> q <> "" -> path_of (n_object (info_of t)) = Some q.
Proof.
  unfold tree_path, path_of. intros -> Hq.
  destruct (String.eqb_spec q ""); [contradiction | reflexivity].
Qed.

Lemma root_paths_of_map (f : tree -> tree) roots :
  (forall t, info_of (f t) = info_of t) ->
  root_paths_of (map f roots) = root_paths_of roots.
Proof.
  intros Hf. induction roots as [|r roots IH]; [reflexivity|].
  cbn [map]. rewrite !root_paths_of_cons, IH, Hf. reflexivity.
Qed.

Lemma root_paths_of_keys qs roots :
  Forall2 (fun q t => path_of (n_object (info_of t)) = Some q) qs roots ->
  root_paths_of roots = qs.
Proof.
  induction 1 as [|q t qs roots Hq _ IH]; [reflexivity|].
  rewrite root_paths_of_cons, Hq, IH. reflexivity.
Qed.

Lemma Forall2_impl_In {A B} (R R' : A -> B -> Prop) l k :
  Forall2 R l k -> (forall x y, In x l -> R x y -> R' x y) -> Forall2 R' l k.
Proof.
  induction 1 as [|x y l k Hxy _ IH]; intros HR; constructor.
  - apply HR; [left; reflexivity | exact Hxy].
  - apply IH. intros x' y' Hx'. apply HR. right. exact Hx'.
Qed.

Lemma sum_list_with_map {A B} (g : B -> nat) (f : A -> B) l :
  sum_list_with g (map f l) = sum_list_with (fun x => g (f x)) l.
Proof. induction l as [|x l IH]; cbn; [reflexivity|]. rewrite IH. reflexivity. Qed.

(** After the orchestration has built and sorted the tree, the node counts
    of the diagrams add up to the number of distinct non-empty paths. *)
Lemma diagrams_cover_keys objects :
  exists (heap : list (string * hnode)) roots nodes,
    _build_tree objects = Some (roots, nodes)
    /\ NoDup (ODict.keys heap)
    /\ (forall k, In k (ODict.keys heap) <-> In k (record_paths objects))
    /\ (NoDup (record_paths objects) -> ODict.keys heap = record_paths objects)
    /\ forall diagram_count,
         sum_list_with nodeCount
           (_build_diagrams objects (OrchestrateMapping._sort_tree roots) diagram_count)
         = length (ODict.keys heap).
Proof.
  destruct (build_tree_spec objects)
    as (heap & roots & nodes & Hb & Hnd & Hkeys & Hexact & Hroots & Hsum).
  exists heap, roots, nodes.
  split; [exact Hb|]. split; [exact Hnd|]. split; [exact Hkeys|]. split; [exact Hexact|].
  intros diagram_count. rewrite build_diagrams_sum. unfold collect_roots.
  rewrite collect_roots_fst. cbn [fst app].
  set (root_keys := List.filter (fun p => negb (has_parent (ODict.keys heap) p))
                                (ODict.keys heap)) in *.
  assert (Hpaths : Forall2 (fun q t => path_of (n_object (info_of t)) = Some q) root_keys roots).
  { eapply Forall2_impl_In; [exact Hroots|]. intros q t [Hq _]%filter_In [_ Hp].
    apply tree_path_of; [exact Hp|]. eapply record_paths_nonempty, Hkeys, Hq. }
  assert (Hperm : Permutation (OrchestrateMapping._sort_tree roots) (map sort_below roots))
    by apply sort_by_perm.
  assert (Hrp : Permutation (root_paths_of (OrchestrateMapping._sort_tree roots)) root_keys).
  { unfold root_paths_of at 1. rewrite Hperm. fold (root_paths_of (map sort_below roots)).
    rewrite (root_paths_of_map sort_below) by apply sort_below_info.
    rewrite (root_paths_of_keys _ _ Hpaths). reflexivity. }
  rewrite collect_roots_sizes.
  - rewrite sum_count_with_paths.
    + rewrite Hperm, sum_list_with_map.
      rewrite <- Hsum. apply sum_list_with_ext_in. intros t _. apply sort_below_count.
    + rewrite Hperm. apply Forall_map. clear -Hpaths.
      induction Hpaths as [|q t qs roots Hq _ IH]; constructor; [|exact IH].
      rewrite sort_below_info, Hq. eauto.
  - rewrite Hrp. subst root_keys.
    apply NoDup_ListNoDup, List.NoDup_filter, NoDup_ListNoDup, Hnd.
Qed.
(** C2, as stated, fails: a record with a path but without an identity is a
    node of the tree and is counted in [nodeCount], so for the single
    record [A] without identity the node counts add up to 1 while no record
    has both an identity and a path. *)
Lemma C2_counterexample :
  ~ (forall objects : list entry, objects <> [] ->
       forall roots nodes diagram_count,
         _build_tree objects = Some (roots, nodes) ->
         sum_list_with nodeCount
           (_build_diagrams objects (OrchestrateMapping._sort_tree roots) diagram_count)
         = length (List.filter (fun e => has_identity e && has_path e) objects)).
Proof.
  intros H.
  destruct (_build_tree [Sample.record "A" None]) as [[roots nodes]|] eqn:Hb;
    [|vm_compute in Hb; discriminate].
  specialize (H [Sample.record "A" None] ltac:(discriminate) roots nodes 1%Z Hb).
  vm_compute in Hb. injection Hb as <- <-. vm_compute in H. discriminate.
Qed.

(** C2 (amended): after partitioning, for any diagram count, the node counts
    of the diagrams add up to the number of distinct non-empty paths of the
    records; when the paths are pairwise different this is the number of
    records with a non-empty path, with or without an identity. *)
Theorem C2_node_counts_cover_paths :
  (forall objects : list entry,
      exists roots nodes,
        _build_tree objects = Some (roots, nodes)
        /\ forall diagram_count,
             sum_list_with nodeCount
               (_build_diagrams objects (OrchestrateMapping._sort_tree roots) diagram_count)
             = length (remove_dups (record_paths objects)))
  /\ (forall objects : list entry,
        NoDup (record_paths objects) ->
        exists roots nodes,
          _build_tree objects = Some (roots, nodes)
          /\ forall diagram_count,
               sum_list_with nodeCount
                 (_build_diagrams objects (OrchestrateMapping._sort_tree roots) diagram_count)
               = length (List.filter has_path objects)).
Proof.
  split.
  - intros objects.
    destruct (diagrams_cover_keys objects)
      as (heap & roots & nodes & Hb & Hnd & Hkeys & _ & Hsum).
    exists roots, nodes. split; [exact Hb|]. intros diagram_count. rewrite Hsum.
    apply Permutation_length, NoDup_Permutation; [exact Hnd | apply NoDup_remove_dups|].
    intros p. rewrite elem_of_remove_dups, !list_elem_of_In. apply Hkeys.
  - intros objects Huniq.
    destruct (diagrams_cover_keys objects)
      as (heap & roots & nodes & Hb & _ & _ & Hexact & Hsum).
    exists roots, nodes. split; [exact Hb|]. intros diagram_count.
    rewrite Hsum, (Hexact Huniq). apply record_paths_length.
Qed.

Lemma C2_witness :
  exists roots nodes,
    _build_tree Sample.chain = Some (roots, nodes)
    /\ forall diagram_count,
         sum_list_with nodeCount
           (_build_diagrams Sample.chain (OrchestrateMapping._sort_tree roots) diagram_count)
         = length (List.filter has_path Sample.chain).
Proof.
  apply (proj2 C2_node_counts_cover_paths Sample.chain).
  apply (bool_decide_unpack _). vm_compute. exact I.
Defined.

(** The orchestration as a whole: it returns, and with pairwise different
    paths the node counts of its diagrams add up to the number of records
    with a path. *)
Lemma map_scene_node_counts objects cond :
  NoDup (record_paths objects) ->
  exists m,
    map_scene objects cond = Some m
    /\ sum_list_with nodeCount (m_diagrams m) = length (List.filter has_path objects).
Proof.
  intros Huniq.
  destruct (diagrams_cover_keys objects)
    as (heap & roots & nodes & Hb & _ & _ & Hexact & Hsum).
  unfold map_scene. rewrite Hb. eexists. split; [reflexivity|].
  cbn [m_diagrams]. rewrite Hsum, (Hexact Huniq). apply record_paths_length.
Qed.
(** ** Theorems: grouping aggregator *)

Lemma hits_bump `{Countable K} (k' k : K) (d : gmap K nat) :
  hits (bump k' d) k = hits d k + (if decide (k' = k) then 1 else 0).
Proof.
  unfold hits, bump. destruct (decide (k' = k)) as [->|Hne].
  - rewrite lookup_insert_eq. reflexivity.
  - rewrite lookup_insert_ne by exact Hne. lia.
Qed.

Lemma hits_count_list (l : list string) (d : gmap string nat) k :
  NoDup l ->
  hits (foldr (fun comp d => if String.eqb comp "" then d else bump comp d) d l) k =
    hits d k + (if decide (k ∈ l /\ k <> "") then 1 else 0).
Proof.
  induction 1 as [|c l Hc Hnd IH]; cbn [foldr].
  - destruct (decide _) as [[Hk _]|_]; [inversion Hk | lia].
  - destruct (String.eqb_spec c "") as [->|Hne].
    + rewrite IH. repeat destruct (decide _); try lia; set_solver.
    + rewrite hits_bump, IH. repeat destruct (decide _); try lia; set_solver.
Qed.

(** A record adds one to every non-empty name of its normalised set. *)
Lemma hits_count_components (normalized : gset string) (d : gmap string nat) k :
  hits (count_components normalized d) k =
    hits d k + (if decide (k ∈ normalized /\ k <> "") then 1 else 0).
Proof.
  unfold count_components. rewrite hits_count_list by apply NoDup_elements.
  repeat destruct (decide _); try lia; set_solver.
Qed.

(** What one record adds to each table, key by key. *)
Lemma lens_step_hits t e :
  (forall k, hits (tag_counts (lens_step t e)) k
             = hits (tag_counts t) k + (if decide (tag_key e = k) then 1 else 0))
  /\ (forall k, hits (layer_counts (lens_step t e)) k
             = hits (layer_counts t) k + (if decide (layer_key e = k) then 1 else 0))
  /\ (forall k, hits (prefab_counts (lens_step t e)) k
             = hits (prefab_counts t) k
               + (if decide (PyStr.truthy (prefabPath (entry_obj e)) = true
                             /\ prefabPath (entry_obj e) = Some k) then 1 else 0))
  /\ (forall k, hits (component_counts (lens_step t e)) k
             = hits (component_counts t) k
               + (if decide (k ∈ normalized_components e /\ k <> "") then 1 else 0))
  /\ (forall k, hits (depth_counts (lens_step t e)) k
             = hits (depth_counts t) k + (if decide (depth_of e = k) then 1 else 0)).
Proof.
  unfold lens_step.
  cbn [tag_counts layer_counts prefab_counts component_counts depth_counts].
  repeat split; intros k.
  - apply hits_bump.
  - apply hits_bump.
  - destruct (PyStr.truthy (prefabPath (entry_obj e))) eqn:Htruthy.
    + rewrite hits_bump. unfold PyStr.truthy in Htruthy.
      destruct (prefabPath (entry_obj e)) as [p|]; [|discriminate]. cbn [default].
      repeat destruct (decide _); try lia; naive_solver.
    + destruct (decide _) as [[[=] _]|_]. lia.
  - apply hits_count_components.
  - apply hits_bump.
Qed.

(** A table after the loop holds, for every key, what it held before plus
    what each record adds. *)
Lemma fold_hits `{Countable K} (proj : count_tables -> gmap K nat) (w : entry -> K -> nat) :
  (forall t e k, hits (proj (lens_step t e)) k = hits (proj t) k + w e k) ->
  forall objects t k,
    hits (proj (fold_left lens_step objects t)) k
    = hits (proj t) k + sum_list_with (fun e => w e k) objects.
Proof.
  intros Hstep. induction objects as [|e objects IH]; intros t k; cbn [fold_left sum_list_with].
  - lia.
  - rewrite IH, Hstep. lia.
Qed.

Lemma fold_hits_insert `{Countable K} (proj : count_tables -> gmap K nat)
    (w : entry -> K -> nat) l1 l2 e k :
  (forall t e k, hits (proj (lens_step t e)) k = hits (proj t) k + w e k) ->
  hits (proj (count_lenses (l1 ++ e :: l2))) k
  = hits (proj (count_lenses (l1 ++ l2))) k + w e k.
Proof.
  intros Hstep. unfold count_lenses. rewrite !(fold_hits proj w Hstep).
  rewrite !sum_list_with_app. cbn [sum_list_with]. lia.
Qed.

Lemma has_path_false_depth e : has_path e = false -> depth_of e = 0.
Proof. intros H. unfold depth_of. rewrite (has_path_false_path e H). reflexivity. Qed.

(** C3, as stated, fails: the depth histogram is computed from
    [obj.get("hierarchyPath") or ""], so a record without a path is counted
    there too, under depth 0. For the single record [Sample.pathless] the
    depth table is [{0: 1}], not empty. *)
Lemma C3_counterexample :
  ~ (forall (l1 l2 : list entry) (e : entry),
       has_path e = false ->
       hits (tag_counts (count_lenses (l1 ++ e :: l2))) (tag_key e)
       = hits (tag_counts (count_lenses (l1 ++ l2))) (tag_key e) + 1
       /\ hits (layer_counts (count_lenses (l1 ++ e :: l2))) (layer_key e)
          = hits (layer_counts (count_lenses (l1 ++ l2))) (layer_key e) + 1
       /\ depth_counts (count_lenses (l1 ++ e :: l2))
          = depth_counts (count_lenses (l1 ++ l2))).
Proof.
  intros H. destruct (H [] [] Sample.pathless eq_refl) as (_ & _ & Hdepth).
  apply (f_equal (fun d => d !! 0)) in Hdepth. vm_compute in Hdepth. discriminate.
Qed.

(** C3 (amended): a record without a path adds one to the tag table under
    its tag, one to the layer table under its layer, one to the prefab
    table when it has a non-empty prefab path, one to the component table
    under each of its non-empty normalised component names, and also one to
    the depth table, under depth 0. *)
Theorem C3_pathless_record_counted (l1 l2 : list entry) (e : entry) :
  has_path e = false ->
  hits (tag_counts (count_lenses (l1 ++ e :: l2))) (tag_key e)
  = hits (tag_counts (count_lenses (l1 ++ l2))) (tag_key e) + 1
  /\ hits (layer_counts (count_lenses (l1 ++ e :: l2))) (layer_key e)
     = hits (layer_counts (count_lenses (l1 ++ l2))) (layer_key e) + 1
  /\ (forall p, prefabPath (entry_obj e) = Some p -> p <> "" ->
        hits (prefab_counts (count_lenses (l1 ++ e :: l2))) p
        = hits (prefab_counts (count_lenses (l1 ++ l2))) p + 1)
  /\ (forall c, c ∈ normalized_components e -> c <> "" ->
        hits (component_counts (count_lenses (l1 ++ e :: l2))) c
        = hits (component_counts (count_lenses (l1 ++ l2))) c + 1)
  /\ depth_of e = 0
  /\ hits (depth_counts (count_lenses (l1 ++ e :: l2))) 0
     = hits (depth_counts (count_lenses (l1 ++ l2))) 0 + 1.
Proof.
  intros Hpath. assert (Hdepth := has_path_false_depth e Hpath).
  split; [|split; [|split; [|split; [|split; [exact Hdepth|]]]]].
  - rewrite (fold_hits_insert tag_counts
               (fun e k => if decide (tag_key e = k) then 1 else 0))
      by (intros; apply lens_step_hits).
    rewrite decide_True by reflexivity. reflexivity.
  - rewrite (fold_hits_insert layer_counts
               (fun e k => if decide (layer_key e = k) then 1 else 0))
      by (intros; apply lens_step_hits).
    rewrite decide_True by reflexivity. reflexivity.
  - intros p Hp Hne.
    rewrite (fold_hits_insert prefab_counts
               (fun e k => if decide (PyStr.truthy (prefabPath (entry_obj e)) = true
                                      /\ prefabPath (entry_obj e) = Some k)
                           then 1 else 0))
      by (intros; apply lens_step_hits).
    rewrite decide_True; [reflexivity|]. split; [|exact Hp].
    rewrite Hp. cbn. destruct (String.eqb_spec p ""); [contradiction | reflexivity].
  - intros c Hc Hne.
    rewrite (fold_hits_insert component_counts
               (fun e k => if decide (k ∈ normalized_components e /\ k <> "")
                           then 1 else 0))
      by (intros; apply lens_step_hits).
    rewrite decide_True by (split; assumption). reflexivity.
  - rewrite (fold_hits_insert depth_counts
               (fun e k => if decide (depth_of e = k) then 1 else 0))
      by (intros; apply lens_step_hits).
    rewrite decide_True by exact Hdepth. reflexivity.
Qed.

Lemma C3_witness :
  hits (depth_counts (count_lenses ([] ++ Sample.pathless :: Sample.chain))) 0
  = hits (depth_counts (count_lenses ([] ++ Sample.chain))) 0 + 1.
Proof.
  apply (C3_pathless_record_counted [] Sample.chain Sample.pathless).
  reflexivity.
Defined.

(** The rendered depth histogram of the scene with the pathless record in
    front of the chain [A], [A/B], [A/B/C], [D]: three records at depth 0. *)
Example depth_histogram_with_pathless :
  gl_depthHistogram (_build_grouping_lenses (Sample.pathless :: Sample.chain) [])
  = [(0, 3); (1, 1); (2, 1)].
Proof. vm_compute. reflexivity. Qed.

(** * Part III. Further properties of the code *)

(** ** String helpers *)

Lemma rsplit1_spec c s h t :
  PyStr.rsplit1 c s = Some (h, t) ->
  s = h +:+ String c t /\ PyStr.contains c t = false.
Proof.
  revert h t. induction s as [|a s IH]; intros h t; cbn; [discriminate|].
  destruct (PyStr.rsplit1 c s) as [[h' t']|] eqn:Hs.
  - intros [= <- <-]. destruct (IH _ _ eq_refl) as [-> Ht]. split; [reflexivity | exact Ht].
  - destruct (Ascii.eqb_spec a c) as [->|Hne]; [|discriminate].
    intros [= <- <-]. split; [reflexivity|].
    apply not_true_is_false. intros [x Hx]%rsplit1_contains. congruence.
Qed.

Lemma app_cons x (a b : string) : String x a +:+ b = String x (a +:+ b).
Proof. reflexivity. Qed.

Lemma app_empty (b : string) : "" +:+ b = b.
Proof. reflexivity. Qed.

Lemma prefix_app a b : String.prefix a (a +:+ b) = true.
Proof.
  induction a as [|x a IH]; [destruct b; reflexivity|].
  rewrite app_cons. cbn. destruct (ascii_dec x x); [exact IH | contradiction].
Qed.

Lemma prefix_app_r a b c : String.prefix a b = true -> String.prefix a (b +:+ c) = true.
Proof.
  revert b. induction a as [|x a IH]; intros [|y b]; try discriminate.
  - intros _. destruct (""  +:+ c); reflexivity.
  - intros _. reflexivity.
  - rewrite app_cons. cbn. destruct (ascii_dec x y); [apply IH | discriminate].
Qed.

Lemma string_app_assoc (a b c : string) : (a +:+ b) +:+ c = a +:+ (b +:+ c).
Proof.
  induction a as [|x a IH]; [reflexivity|]. rewrite !app_cons, IH. reflexivity.
Qed.

(** [p] names [q] as parent exactly when [p] is [q], a separator and one
    further segment without separator. *)
Lemma child_of_spec q p :
  child_of q p = true <->
  exists seg, p = q +:+ "/" +:+ seg /\ PyStr.contains slash seg = false.
Proof.
  unfold child_of, PyStr.rsplit_head. split.
  - intros [Hslash Heq%String.eqb_eq]%andb_true_iff.
    destruct (PyStr.rsplit1 slash p) as [[h t]|] eqn:Hs.
    + subst h. apply rsplit1_spec in Hs as [-> Ht]. exists t. auto.
    + apply rsplit1_contains in Hslash as [x Hx]. congruence.
  - intros (seg & -> & Hseg).
    assert (Hs : PyStr.rsplit1 slash (q +:+ "/" +:+ seg) = Some (q, seg)).
    { induction q as [|a q IH].
      - rewrite app_empty. change ("/" +:+ seg) with (String slash seg). cbn.
        destruct (PyStr.rsplit1 slash seg) as [[h t]|] eqn:Hs; [|reflexivity].
        assert (PyStr.contains slash seg = true) by (apply rsplit1_contains; eauto).
        congruence.
      - rewrite app_cons. cbn. rewrite IH. reflexivity. }
    rewrite Hs, String.eqb_refl, andb_true_r.
    apply rsplit1_contains. eauto.
Qed.

Lemma normalize_without_dot s :
  PyStr.contains dot s = false -> _normalize_component_name s = s.
Proof.
  intros Hs. unfold _normalize_component_name. rewrite Hs.
  destruct (String.eqb_spec s ""); congruence.
Qed.

Lemma normalize_with_dot s :
  PyStr.contains dot s = true ->
  exists h t, s = h +:+ String dot t /\ PyStr.contains dot t = false
              /\ _normalize_component_name s = t.
Proof.
  intros Hdot. unfold _normalize_component_name, PyStr.rsplit_last. rewrite Hdot.
  destruct (String.eqb_spec s "") as [->|_]; [discriminate|].
  apply rsplit1_contains in Hdot as [[h t] Hs]. rewrite Hs.
  apply rsplit1_spec in Hs as [-> Ht]. eauto.
Qed.

(** X1: [_normalize_component_name] returns a name without a dot, which is
    what is left of the input after some prefix, and normalising again
    changes nothing. *)
Theorem X1_normalize_component_name (component_name : string) :
  PyStr.contains dot (_normalize_component_name component_name) = false
  /\ (exists namespace,
        component_name = namespace +:+ _normalize_component_name component_name)
  /\ _normalize_component_name (_normalize_component_name component_name)
     = _normalize_component_name component_name.
Proof.
  destruct (PyStr.contains dot component_name) eqn:Hdot.
  - destruct (normalize_with_dot _ Hdot) as (h & t & -> & Ht & ->).
    split; [exact Ht|]. split; [|apply normalize_without_dot, Ht].
    exists (h +:+ "."). rewrite string_app_assoc. reflexivity.
  - rewrite !normalize_without_dot by exact Hdot.
    split; [exact Hdot|]. split; [exists ""; reflexivity | reflexivity].
Qed.

(** ** The forest of [_build_tree] *)

(** [_build_tree] with the store it read the trees from. *)
Lemma build_tree_store objects :
  exists (heap : list (string * hnode)) roots nodes,
    _build_tree objects = Some (roots, nodes)
    /\ NoDup (ODict.keys heap)
    /\ (forall k, In k (ODict.keys heap) <-> In k (record_paths objects))
    /\ (forall q, In q (ODict.keys heap) ->
          exists i, ODict.get q heap =
                      Some (mk_hnode i (List.filter (child_of q) (ODict.keys heap)))
                    /\ hierarchyPath (n_object i) = Some q)
    /\ Forall2 (fun q t => subtree heap q = Some t /\ tree_path t = Some q)
         (List.filter (fun p => negb (has_parent (ODict.keys heap) p)) (ODict.keys heap))
         roots.
Proof.
  destruct (index_nodes_spec objects) as (Hnd & Hfresh & Hkeys & _).
  destruct (link_nodes_spec _ Hfresh) as (heap & Hlink & Hk & Hlinked).
  rewrite <- Hk in Hnd, Hkeys, Hlinked, Hlink.
  destruct (subtrees_of_keys heap
              (List.filter (fun p => negb (has_parent (ODict.keys heap) p)) (ODict.keys heap))
              Hnd Hlinked) as [roots Hroots].
  { intros q [Hq _]%filter_In. exact Hq. }
  destruct (build_tree_spec objects) as (heap' & roots' & nodes' & Hb & _).
  assert (Hroots' : mapM (subtree heap)
            (List.filter (fun p => negb (has_parent (ODict.keys heap) p)) (ODict.keys heap))
          = Some roots).
  { apply mapM_Some. eapply Forall2_impl; [exact Hroots|]. cbn. tauto. }
  exists heap, roots, nodes'.
  split; [|split; [assumption|]; split; [assumption|]; split; assumption].
  rewrite Hb. unfold _build_tree in Hb. rewrite Hlink, Hroots' in Hb.
  destruct (mapM _ (ODict.keys heap)); [|discriminate]. congruence.
Qed.

Lemma has_parent_spec keys p :
  has_parent keys p = true <->
  PyStr.contains slash p = true /\ In (PyStr.rsplit_head slash p) keys.
Proof. unfold has_parent. rewrite andb_true_iff, existsb_eqb_In. reflexivity. Qed.

(** X2: the roots of [_build_tree] carry pairwise different paths, and a
    path is the path of a root exactly when it is the non-empty path of a
    record and either has no separator or is cut, before its last
    separator, to something that is the path of no record. *)
Theorem X2_build_tree_roots (objects : list entry) :
  exists roots nodes,
    _build_tree objects = Some (roots, nodes)
    /\ NoDup (map tree_path roots)
    /\ forall p,
         In (Some p) (map tree_path roots) <->
         In p (record_paths objects)
         /\ (PyStr.contains slash p = false
             \/ ~ In (PyStr.rsplit_head slash p) (record_paths objects)).
Proof.
  destruct (build_tree_store objects)
    as (heap & roots & nodes & Hb & Hnd & Hkeys & _ & Hroots).
  exists roots, nodes. split; [exact Hb|].
  rewrite (Forall2_paths _ _ Hroots). split.
  - apply NoDup_fmap_2; [intros a b [=]; assumption|].
    apply NoDup_ListNoDup, List.NoDup_filter, NoDup_ListNoDup, Hnd.
  - intros p. rewrite in_map_iff. split.
    + intros (q & [= ->] & [Hq Hroot]%filter_In).
      split; [apply Hkeys, Hq|].
      apply negb_true_iff in Hroot.
      destruct (PyStr.contains slash p) eqn:Hslash; [right | left; reflexivity].
      intros Hpar. apply Hkeys in Hpar.
      assert (has_parent (ODict.keys heap) p = true) by (apply has_parent_spec; auto).
      congruence.
    + intros [Hp Hroot]. exists p. split; [reflexivity|].
      apply filter_In. split; [apply Hkeys, Hp|].
      apply negb_true_iff, not_true_is_false.
      intros [Hslash Hpar]%has_parent_spec. destruct Hroot as [Hno|Hno].
      * congruence.
      * apply Hno, Hkeys, Hpar.
Qed.

Lemma count_occ_flat_map {A B} (dec : forall x y : B, {x = y} + {x <> y})
    (f : A -> list B) l x :
  count_occ dec (flat_map f l) x = sum_list_with (fun a => count_occ dec (f a) x) l.
Proof.
  induction l as [|a l IH]; cbn [flat_map sum_list_with]; [reflexivity|].
  rewrite count_occ_app, IH. reflexivity.
Qed.

Lemma sum_list_with_add {A} (f g : A -> nat) l :
  sum_list_with (fun x => f x + g x) l = sum_list_with f l + sum_list_with g l.
Proof. induction l as [|x l IH]; cbn; [reflexivity|]. rewrite IH. lia. Qed.

Lemma Forall2_exists_l {A B} (R : A -> B -> Prop) l k :
  Forall2 R l k -> Forall (fun y => exists x, In x l /\ R x y) k.
Proof.
  induction 1 as [|x y l k Hxy _ IH]; constructor.
  - exists x. split; [left; reflexivity | exact Hxy].
  - eapply Forall_impl; [exact IH|]. intros y' (x' & Hx' & HR). exists x'. split; [right|]; auto.
Qed.

Section StoreForest.

Variable heap : list (string * hnode).
Hypothesis keys_nodup : NoDup (ODict.keys heap).
Hypothesis heap_linked :
  forall q, In q (ODict.keys heap) ->
    exists i, ODict.get q heap =
                Some (mk_hnode i (List.filter (child_of q) (ODict.keys heap)))
              /\ hierarchyPath (n_object i) = Some q.

(** Any quantity that a key adds to the quantities of its children adds up,
    over the roots, to what the keys contribute themselves. *)
Lemma roots_cover_weighted (total own : string -> nat) :
  (forall p, In p (ODict.keys heap) ->
     total p = own p
               + sum_list_with total (List.filter (child_of p) (ODict.keys heap))) ->
  sum_list_with total
    (List.filter (fun p => negb (has_parent (ODict.keys heap) p)) (ODict.keys heap))
  = sum_list_with own (ODict.keys heap).
Proof.
  intros Hstep.
  assert (Hall :
    sum_list_with total (ODict.keys heap) =
      sum_list_with own (ODict.keys heap)
      + sum_list_with total (List.filter (has_parent (ODict.keys heap)) (ODict.keys heap))).
  { rewrite <- (sum_over_children total) by assumption.
    rewrite <- sum_list_with_add. apply sum_list_with_ext_in, Hstep. }
  rewrite (sum_list_with_filter_split total (has_parent (ODict.keys heap))) in Hall.
  lia.
Qed.

(** Every tree read from the store is linked and carries the key it was
    read at. *)
Lemma reify_linked n : forall p t,
  In p (ODict.keys heap) -> reify n heap p = Some t ->
  linked t /\ tree_path t = Some p.
Proof.
  induction n as [|n IH]; intros p t Hp; [discriminate|].
  cbn [reify]. destruct (heap_linked p Hp) as (i & -> & Hpath). cbn [h_children h_info].
  destruct (mapM _ _) as [cs|] eqn:Hcs; [|discriminate]. intros [= <-].
  split; [|exact Hpath].
  apply mapM_Some, Forall2_exists_l in Hcs.
  apply linked_node with (q := p); [exact Hpath| |].
  - eapply Forall_impl; [exact Hcs|]. cbn.
    intros c (q & [Hq Hchild]%filter_In & Hc). exists q.
    split; [apply (IH q c Hq Hc) | exact Hchild].
  - eapply Forall_impl; [exact Hcs|]. cbn.
    intros c (q & [Hq _]%filter_In & Hc). apply (IH q c Hq Hc).
Qed.

(** The paths below a key, as the tree read at that key lists them. *)
Lemma subtree_paths_unfold p :
  In p (ODict.keys heap) ->
  from_option tree_paths [] (subtree heap p)
  = Some p :: flat_map (fun c => from_option tree_paths [] (subtree heap c))
                       (List.filter (child_of p) (ODict.keys heap)).
Proof.
  intros Hp. destruct (subtree_unfold heap heap_linked p Hp) as (i & cs & -> & Hcs & Hpath).
  cbn [from_option tree_paths]. rewrite Hpath. f_equal.
  apply mapM_Some in Hcs. clear -Hcs.
  induction Hcs as [|q c qs cs Hq _ IH]; [reflexivity|].
  cbn [flat_map]. rewrite Hq, IH. reflexivity.
Qed.

(** The trees of the roots list every key exactly once. *)
Lemma root_paths_cover :
  Permutation
    (flat_map (fun r => from_option tree_paths [] (subtree heap r))
       (List.filter (fun p => negb (has_parent (ODict.keys heap) p)) (ODict.keys heap)))
    (map Some (ODict.keys heap)).
Proof.
  apply (Permutation_count_occ (fun a b : option string => decide (a = b))).
  intros x. rewrite count_occ_flat_map.
  rewrite (roots_cover_weighted _ (fun p => if decide (Some p = x) then 1 else 0)).
  - clear. induction (ODict.keys heap) as [|k ks IH]; cbn; [reflexivity|].
    rewrite <- IH. destruct (decide (Some k = x)); reflexivity.
  - intros p Hp. rewrite (subtree_paths_unfold p Hp). cbn [count_occ].
    rewrite count_occ_flat_map. destruct (decide (Some p = x)); reflexivity.
Qed.

End StoreForest.

(** X3: in the forest of [_build_tree] every node carries a path, and the
    path of every child is the path of its owner, a separator and one more
    segment without separator. *)
Theorem X3_build_tree_linked (objects : list entry) :
  exists roots nodes,
    _build_tree objects = Some (roots, nodes) /\ Forall linked roots.
Proof.
  destruct (build_tree_store objects)
    as (heap & roots & nodes & Hb & Hnd & Hkeys & Hlinked & Hroots).
  exists roots, nodes. split; [exact Hb|].
  apply Forall2_exists_l in Hroots. eapply Forall_impl; [exact Hroots|]. cbv beta.
  intros t (q & [Hq _]%filter_In & Ht & _).
  apply (reify_linked heap Hlinked (tree_fuel heap) q t Hq Ht).
Qed.

Lemma forest_paths_of_keys heap qs roots :
  Forall2 (fun q t => subtree heap q = Some t /\ tree_path t = Some q) qs roots ->
  forest_paths roots = flat_map (fun r => from_option tree_paths [] (subtree heap r)) qs.
Proof.
  induction 1 as [|q t qs roots [Hq _] _ IH]; [reflexivity|].
  unfold forest_paths in *. cbn [flat_map]. rewrite Hq, IH. reflexivity.
Qed.

(** The forest of [_build_tree] lists the keys of the store, each once. *)
Lemma build_tree_keys_cover (objects : list entry) :
  exists (heap : list (string * hnode)) roots nodes,
    _build_tree objects = Some (roots, nodes)
    /\ NoDup (ODict.keys heap)
    /\ (forall k, In k (ODict.keys heap) <-> In k (record_paths objects))
    /\ Permutation (forest_paths roots) (map Some (ODict.keys heap)).
Proof.
  destruct (build_tree_store objects)
    as (heap & roots & nodes & Hb & Hnd & Hkeys & Hlinked & Hroots).
  exists heap, roots, nodes. split; [exact Hb|]. split; [exact Hnd|]. split; [exact Hkeys|].
  rewrite (forest_paths_of_keys _ _ _ Hroots). apply root_paths_cover; assumption.
Qed.

Lemma keys_remove_dups (keys paths : list string) :
  NoDup keys -> (forall k, In k keys <-> In k paths) ->
  Permutation keys (remove_dups paths).
Proof.
  intros Hnd Hkeys. apply NoDup_Permutation; [exact Hnd | apply NoDup_remove_dups|].
  intros p. rewrite elem_of_remove_dups, !list_elem_of_In. apply Hkeys.
Qed.

(** X4: the forest of [_build_tree] lists every distinct non-empty path of
    the records exactly once: no path is lost, none occurs twice. *)
Theorem X4_build_tree_paths (objects : list entry) :
  exists roots nodes,
    _build_tree objects = Some (roots, nodes)
    /\ Permutation (forest_paths roots) (map Some (remove_dups (record_paths objects)))
    /\ NoDup (forest_paths roots).
Proof.
  destruct (build_tree_keys_cover objects)
    as (heap & roots & nodes & Hb & Hnd & Hkeys & Hperm).
  exists roots, nodes. split; [exact Hb|]. split.
  - rewrite Hperm. apply Permutation_map, keys_remove_dups; assumption.
  - rewrite Hperm. apply NoDup_fmap_2; [intros a b [=]; assumption | exact Hnd].
Qed.

(** ** The tree sorters *)

Lemma sort_below_idem t : sort_below (sort_below t) = sort_below t.
Proof.
  induction t as [i cs IH] using tree_forall_ind. cbn [sort_below]. f_equal.
  rewrite <- (sort_by_map path_le path_le sort_below) by apply sort_below_path_le.
  rewrite map_map.
  replace (map (fun c => sort_below (sort_below c)) cs) with (map sort_below cs).
  - apply sort_by_sorted_id, sort_by_sorted, path_le_total.
  - apply map_ext_in. intros c Hc. symmetry.
    rewrite Forall_forall in IH. apply IH, list_elem_of_In, Hc.
Qed.

(** X5: sorting a sorted forest changes nothing, for both sorters. *)
Theorem X5_sort_tree_idempotent (nodes : list tree) :
  OrchestrateMapping._sort_tree (OrchestrateMapping._sort_tree nodes)
  = OrchestrateMapping._sort_tree nodes
  /\ SceneOutline._sort_tree (SceneOutline._sort_tree nodes)
     = SceneOutline._sort_tree nodes.
Proof.
  unfold OrchestrateMapping._sort_tree, SceneOutline._sort_tree. split.
  - rewrite <- (sort_by_map path_le path_le sort_below) by apply sort_below_path_le.
    rewrite map_map.
    rewrite (map_ext _ sort_below) by apply sort_below_idem.
    apply sort_by_sorted_id, sort_by_sorted, path_le_total.
  - rewrite map_map. apply map_ext, sort_below_idem.
Qed.

Lemma flat_map_map_perm {A B} (f : A -> list B) (g : A -> A) l :
  Forall (fun a => Permutation (f (g a)) (f a)) l ->
  Permutation (flat_map f (map g l)) (flat_map f l).
Proof.
  induction 1 as [|a l Ha _ IH]; cbn [map flat_map]; [reflexivity|].
  rewrite Ha, IH. reflexivity.
Qed.

Lemma tree_paths_sort_below t : Permutation (tree_paths (sort_below t)) (tree_paths t).
Proof.
  induction t as [i cs IH] using tree_forall_ind. cbn [sort_below tree_paths].
  apply perm_skip.
  rewrite (Permutation_flat_map tree_paths (sort_by_perm path_le (map sort_below cs))).
  apply flat_map_map_perm, IH.
Qed.

(** X6: both sorters only reorder: the sorted forest has the paths of the
    given forest, each as often as before, so no node is added or lost. *)
Theorem X6_sort_tree_keeps_nodes (nodes : list tree) :
  Permutation (forest_paths (OrchestrateMapping._sort_tree nodes)) (forest_paths nodes)
  /\ Permutation (forest_paths (SceneOutline._sort_tree nodes)) (forest_paths nodes).
Proof.
  assert (Hso : Permutation (forest_paths (map sort_below nodes)) (forest_paths nodes)).
  { apply flat_map_map_perm, Forall_forall. intros t _. apply tree_paths_sort_below. }
  unfold OrchestrateMapping._sort_tree, SceneOutline._sort_tree. split; [|exact Hso].
  rewrite <- Hso. unfold forest_paths. apply Permutation_flat_map, sort_by_perm.
Qed.

(** X7: [_sort_tree] of orchestrate_mapping.py leaves the siblings of every
    level, the roots included, in ascending path order; [_sort_tree] of
    scene_outline.py leaves every child list in ascending path order. *)
Theorem X7_sort_tree_ordered (nodes : list tree) :
  ordered_forest (OrchestrateMapping._sort_tree nodes)
  /\ Forall ordered_below (SceneOutline._sort_tree nodes).
Proof.
  split; [apply orchestrate_sort_tree_ordered | apply scene_outline_sort_tree_below].
Qed.

(** X8: the result of orchestrate_mapping.py's sorter is the result of
    scene_outline.py's sorter with its top level sorted, and the two results
    are equal exactly when the latter already has its roots in ascending
    path order. *)
Theorem X8_sort_trees_compared (nodes : list tree) :
  OrchestrateMapping._sort_tree nodes = sort_by path_le (SceneOutline._sort_tree nodes)
  /\ (SceneOutline._sort_tree nodes = OrchestrateMapping._sort_tree nodes
      <-> Sorted (fun a b => path_le a b = true) (SceneOutline._sort_tree nodes)).
Proof.
  split; [apply sort_tree_top_level | apply sort_trees_agree_iff].
Qed.

(** ** The diagram partitioner: root assignment *)

Lemma collect_roots_paths roots : fst (collect_roots roots) = root_paths_of roots.
Proof. unfold collect_roots. rewrite collect_roots_fst. reflexivity. Qed.

Lemma Sorted_weaken {A} (R R' : A -> A -> Prop) l :
  (forall a b, R a b -> R' a b) -> Sorted R l -> Sorted R' l.
Proof.
  intros HR. induction 1 as [|x l _ IH Hhd]; constructor; [exact IH|].
  destruct Hhd; constructor. apply HR. assumption.
Qed.

Lemma diagram_le_total a b : diagram_le a b = true \/ diagram_le b a = true.
Proof.
  unfold diagram_le.
  destruct (Nat.ltb_spec (nodeCount a) (nodeCount b)); [left; reflexivity|].
  destruct (Nat.ltb_spec (nodeCount b) (nodeCount a)); [right; reflexivity|].
  assert (Heq : nodeCount a = nodeCount b) by lia. rewrite Heq, Nat.eqb_refl. cbn.
  apply String.leb_total.
Qed.

Lemma diagram_le_count a b : diagram_le a b = true -> nodeCount a <= nodeCount b.
Proof.
  unfold diagram_le. intros [H%Nat.ltb_lt|[H%Nat.eqb_eq _]%andb_true_iff]%orb_true_iff; lia.
Qed.

(** One round of the greedy loop picks a diagram whose node count is not
    above any other and gives it the root. *)
Lemma assign_root_shape root_sizes diagrams p :
  diagrams <> [] ->
  exists target rest,
    Permutation (target :: rest) diagrams
    /\ Forall (fun d => nodeCount target <= nodeCount d) diagrams
    /\ assign_root root_sizes diagrams p = receive root_sizes target p :: rest.
Proof.
  intros Hne. unfold assign_root.
  assert (Hperm := sort_by_perm diagram_le diagrams).
  assert (Hsorted := sort_by_sorted diagram_le diagram_le_total diagrams).
  destruct (sort_by diagram_le diagrams) as [|target rest].
  - apply Permutation_nil in Hperm. congruence.
  - exists target, rest. split; [exact Hperm|]. split; [|reflexivity].
    rewrite <- Hperm.
    apply (Sorted_weaken _ (fun a b => nodeCount a <= nodeCount b)) in Hsorted;
      [|apply diagram_le_count].
    apply Sorted_StronglySorted in Hsorted; [|intros x y z; lia].
    apply StronglySorted_inv in Hsorted as [_ Hall].
    constructor; [lia | exact Hall].
Qed.

(** Induction over the greedy loop: a property of the diagrams and of the
    roots handed out so far that survives one round survives the loop. *)
Lemma assign_fold_ind root_sizes (Q : string -> Prop)
    (P : list diagram -> list string -> Prop) :
  (forall diagrams done p target rest,
      P diagrams done -> Q p ->
      Permutation (target :: rest) diagrams ->
      Forall (fun d => nodeCount target <= nodeCount d) diagrams ->
      P (receive root_sizes target p :: rest) (done ++ [p])) ->
  forall paths diagrams done,
    Forall Q paths -> diagrams <> [] -> P diagrams done ->
    P (fold_left (assign_root root_sizes) paths diagrams) (done ++ paths).
Proof.
  intros Hstep. induction paths as [|p paths IH]; intros ds done HQ Hne HP.
  - rewrite app_nil_r. exact HP.
  - apply Forall_cons in HQ as [Hp HQ]. cbn [fold_left].
    destruct (assign_root_shape root_sizes ds p Hne) as (target & rest & Hperm & Hmin & ->).
    replace (done ++ p :: paths) with ((done ++ [p]) ++ paths)
      by (rewrite <- app_assoc; reflexivity).
    apply IH; [exact HQ | discriminate|].
    eapply Hstep; eassumption.
Qed.

Lemma assign_fold_ind0 root_sizes (Q : string -> Prop)
    (P : list diagram -> list string -> Prop) :
  (forall diagrams done p target rest,
      P diagrams done -> Q p ->
      Permutation (target :: rest) diagrams ->
      Forall (fun d => nodeCount target <= nodeCount d) diagrams ->
      P (receive root_sizes target p :: rest) (done ++ [p])) ->
  forall paths diagrams,
    Forall Q paths -> diagrams <> [] -> P diagrams [] ->
    P (fold_left (assign_root root_sizes) paths diagrams) paths.
Proof.
  intros Hstep paths diagrams HQ Hne HP.
  apply (assign_fold_ind root_sizes Q P Hstep paths diagrams [] HQ Hne HP).
Qed.

Lemma tag_member_frame gid path diagrams :
  map (fun d => (title d, rootPaths d, nodeCount d)) (tag_member gid path diagrams)
  = map (fun d => (title d, rootPaths d, nodeCount d)) diagrams.
Proof.
  induction diagrams as [|d ds IH]; cbn; [reflexivity|].
  destruct (existsb _ _); cbn; [reflexivity | f_equal; exact IH].
Qed.

(** The membership loop changes neither titles, nor root paths, nor node
    counts, nor the order of the diagrams. *)
Lemma member_fold_frame objects diagrams :
  map (fun d => (title d, rootPaths d, nodeCount d)) (fold_left member_step objects diagrams)
  = map (fun d => (title d, rootPaths d, nodeCount d)) diagrams.
Proof.
  revert diagrams. induction objects as [|e objects IH]; intros ds; [reflexivity|].
  cbn [fold_left]. rewrite IH. unfold member_step.
  destruct (PyStr.truthy _); [apply tag_member_frame | reflexivity].
Qed.

Lemma frame_titles diagrams :
  map title diagrams = map (fun f => fst (fst f))
                           (map (fun d => (title d, rootPaths d, nodeCount d)) diagrams).
Proof. rewrite map_map. reflexivity. Qed.

Lemma frame_forall (R : string -> list string -> nat -> Prop) diagrams :
  Forall (fun d => R (title d) (rootPaths d) (nodeCount d)) diagrams <->
  Forall (fun f => R (fst (fst f)) (snd (fst f)) (snd f))
         (map (fun d => (title d, rootPaths d, nodeCount d)) diagrams).
Proof. rewrite Forall_map. reflexivity. Qed.

Lemma fresh_diagrams_nonempty n : (1 <= n)%Z -> fresh_diagrams n <> [].
Proof.
  intros Hn Hnil. apply (f_equal length) in Hnil.
  rewrite fresh_diagrams_length in Hnil. cbn in Hnil. lia.
Qed.

(** The shape of [_build_diagrams]: with no root paths, fresh diagrams;
    otherwise the greedy loop over the sorted root paths followed by the
    membership loop. *)
Lemma build_diagrams_cases objects roots diagram_count :
  (root_paths_of roots = []
   /\ _build_diagrams objects roots diagram_count
      = fresh_diagrams (Z.max 1 diagram_count))
  \/ (root_paths_of roots <> []
      /\ _build_diagrams objects roots diagram_count
         = fold_left member_step objects
             (fold_left (assign_root (snd (collect_roots roots)))
                (sort_by (root_le (snd (collect_roots roots))) (root_paths_of roots))
                (fresh_diagrams
                   (Z.min (Z.max 1 diagram_count)
                          (Z.of_nat (length (root_paths_of roots))))))).
Proof.
  unfold _build_diagrams. rewrite <- collect_roots_paths.
  destruct (collect_roots roots) as [[|p ps] root_sizes]; cbn [fst snd].
  - left. auto.
  - right. split; [discriminate | reflexivity].
Qed.

(** The titles of the diagrams are the titles of the fresh diagrams, in
    some order. *)
Lemma build_diagrams_titles (objects : list entry) (roots : list tree) (diagram_count : Z) :
  (root_paths_of roots = []
   /\ Permutation (map title (_build_diagrams objects roots diagram_count))
                  (map title (fresh_diagrams (Z.max 1 diagram_count))))
  \/ (root_paths_of roots <> []
      /\ Permutation
           (map title (_build_diagrams objects roots diagram_count))
           (map title (fresh_diagrams
                         (Z.min (Z.max 1 diagram_count)
                                (Z.of_nat (length (root_paths_of roots))))))).
Proof.
  destruct (build_diagrams_cases objects roots diagram_count) as [[Hnil ->]|[Hne ->]].
  - left. split; [exact Hnil | reflexivity].
  - right. split; [exact Hne|].
    rewrite frame_titles, member_fold_frame, <- frame_titles.
    apply (assign_fold_ind0 (snd (collect_roots roots)) (fun _ => True)
             (fun ds _ => Permutation (map title ds)
                (map title (fresh_diagrams
                              (Z.min (Z.max 1 diagram_count)
                                     (Z.of_nat (length (root_paths_of roots)))))))).
    + intros ds done p target rest HP _ Hperm _. rewrite <- HP, <- Hperm. reflexivity.
    + apply Forall_forall. auto.
    + apply fresh_diagrams_nonempty.
      destruct (root_paths_of roots); [contradiction | cbn [length]; lia].
    + reflexivity.
Qed.

Lemma fresh_titles n :
  map title (fresh_diagrams n)
  = map (fun i => "Diagram " +:+ pretty (i + 1)) (seq 0 (Z.to_nat n)).
Proof. unfold fresh_diagrams. rewrite map_map. reflexivity. Qed.

(** X9: [_build_diagrams] returns [max(1, diagram_count)] diagrams when no
    root has a path, and otherwise [min(max(1, diagram_count), number of
    root paths)] diagrams; in both cases their titles are [Diagram 1] to
    [Diagram n], each once, in some order. *)
Theorem X9_build_diagrams_slots (objects : list entry) (roots : list tree)
    (diagram_count : Z) :
  ((root_paths_of roots = []
    /\ length (_build_diagrams objects roots diagram_count)
       = Z.to_nat (Z.max 1 diagram_count))
   \/ (root_paths_of roots <> []
       /\ length (_build_diagrams objects roots diagram_count)
          = Z.to_nat (Z.min (Z.max 1 diagram_count)
                            (Z.of_nat (length (root_paths_of roots))))))
  /\ Permutation
       (map title (_build_diagrams objects roots diagram_count))
       (map (fun i => "Diagram " +:+ pretty (i + 1))
            (seq 0 (length (_build_diagrams objects roots diagram_count)))).
Proof.
  destruct (build_diagrams_titles objects roots diagram_count) as [[Hcase Hperm]|[Hcase Hperm]];
    assert (Hlen := Permutation_length Hperm);
    rewrite !length_map, fresh_diagrams_length in Hlen;
    (split; [|rewrite Hlen, Hperm, fresh_titles; reflexivity]).
  - left. split; assumption.
  - right. split; assumption.
Qed.

Lemma concat_fresh_roots n : concat (map rootPaths (fresh_diagrams n)) = [].
Proof.
  assert (H := fresh_diagrams_spec n).
  induction H as [|d ds (Hd & _) _ IH]; cbn; [reflexivity|]. rewrite Hd. exact IH.
Qed.

(** The greedy loop hands out every path it is given, each to one diagram. *)
Lemma assigned_roots_partition root_sizes paths n :
  (1 <= n)%Z ->
  Permutation
    (concat (map rootPaths (fold_left (assign_root root_sizes) paths (fresh_diagrams n))))
    paths.
Proof.
  intros Hn.
  apply (assign_fold_ind0 root_sizes (fun _ => True)
           (fun ds done => Permutation (concat (map rootPaths ds)) done)).
  - intros ds done p target rest HP _ Hperm _.
    rewrite <- HP, <- Hperm. cbn [map concat receive rootPaths].
    rewrite <- !app_assoc. apply Permutation_app_head, Permutation_app_comm.
  - apply Forall_forall. auto.
  - apply fresh_diagrams_nonempty, Hn.
  - rewrite concat_fresh_roots. reflexivity.
Qed.

(** X10: the root paths owned by the diagrams are the truthy root paths,
    each as often as it occurs among the roots: every root is assigned, and
    to one diagram only. *)
Theorem X10_build_diagrams_partition (objects : list entry) (roots : list tree)
    (diagram_count : Z) :
  Permutation (concat (map rootPaths (_build_diagrams objects roots diagram_count)))
              (root_paths_of roots).
Proof.
  destruct (build_diagrams_cases objects roots diagram_count) as [[Hnil ->]|[Hne ->]].
  - rewrite Hnil, concat_fresh_roots. reflexivity.
  - rewrite member_fold_roots, assigned_roots_partition.
    + apply sort_by_perm.
    + destruct (root_paths_of roots); [contradiction | cbn [length]; lia].
Qed.

(** X11: the node count of every diagram is the sum of the sizes recorded
    for the root paths it owns. *)
Theorem X11_build_diagrams_node_counts (objects : list entry) (roots : list tree)
    (diagram_count : Z) :
  Forall (fun d => nodeCount d
                   = sum_list_with (fun p => default 0 (snd (collect_roots roots) !! p))
                                   (rootPaths d))
         (_build_diagrams objects roots diagram_count).
Proof.
  destruct (build_diagrams_cases objects roots diagram_count) as [[Hnil ->]|[Hne ->]].
  - eapply Forall_impl; [apply fresh_diagrams_spec|]. intros d (-> & _ & ->). reflexivity.
  - apply (proj2 (frame_forall (fun _ rps n =>
             n = sum_list_with (fun p => default 0 (snd (collect_roots roots) !! p)) rps) _)).
    rewrite member_fold_frame.
    apply (proj1 (frame_forall (fun _ rps n =>
             n = sum_list_with (fun p => default 0 (snd (collect_roots roots) !! p)) rps) _)).
    apply (assign_fold_ind0 (snd (collect_roots roots)) (fun _ => True)
             (fun ds _ => Forall (fun d => nodeCount d
                 = sum_list_with (fun p => default 0 (snd (collect_roots roots) !! p))
                                 (rootPaths d)) ds)).
    + intros ds done p target rest HP _ Hperm _. rewrite <- Hperm in HP.
      apply Forall_cons in HP as [Ht Hrest]. constructor; [|exact Hrest].
      cbn [receive nodeCount rootPaths]. rewrite sum_list_with_app, Ht. cbn. lia.
    + apply Forall_forall. auto.
    + apply fresh_diagrams_nonempty.
      destruct (root_paths_of roots); [contradiction | cbn [length]; lia].
    + eapply Forall_impl; [apply fresh_diagrams_spec|]. intros d (-> & _ & ->). reflexivity.
Qed.

(** X12: the greedy assignment is balanced: no diagram's node count exceeds
    another's by more than the largest size recorded for a root path. *)
Theorem X12_build_diagrams_balanced (objects : list entry) (roots : list tree)
    (diagram_count : Z) :
  Forall (fun d =>
            Forall (fun d' =>
                      nodeCount d
                      <= nodeCount d'
                         + max_list (map (fun p => default 0 (snd (collect_roots roots) !! p))
                                         (root_paths_of roots)))
                   (_build_diagrams objects roots diagram_count))
         (_build_diagrams objects roots diagram_count).
Proof.
  set (M := max_list _).
  assert (Hcounts : forall ds,
            (forall x y, In x (map nodeCount ds) -> In y (map nodeCount ds) -> x <= y + M) ->
            Forall (fun d => Forall (fun d' => nodeCount d <= nodeCount d' + M) ds) ds).
  { intros ds H. apply List.Forall_forall. intros d Hd.
    apply List.Forall_forall. intros d' Hd'. apply H; apply in_map; assumption. }
  apply Hcounts.
  destruct (build_diagrams_cases objects roots diagram_count) as [[Hnil ->]|[Hne ->]].
  - assert (Hzero : forall x, In x (map nodeCount (fresh_diagrams (Z.max 1 diagram_count))) ->
                              x = 0).
    { intros x (d & <- & Hd)%in_map_iff.
      assert (H := fresh_diagrams_spec (Z.max 1 diagram_count)).
      rewrite List.Forall_forall in H. apply H, Hd. }
    intros x y Hx%Hzero Hy%Hzero. lia.
  - rewrite member_fold_counts.
    assert (HP : forall x y,
              In x (fold_left (assign_root (snd (collect_roots roots)))
                      (sort_by (root_le (snd (collect_roots roots))) (root_paths_of roots))
                      (fresh_diagrams
                         (Z.min (Z.max 1 diagram_count)
                                (Z.of_nat (length (root_paths_of roots)))))) ->
              In y (fold_left (assign_root (snd (collect_roots roots)))
                      (sort_by (root_le (snd (collect_roots roots))) (root_paths_of roots))
                      (fresh_diagrams
                         (Z.min (Z.max 1 diagram_count)
                                (Z.of_nat (length (root_paths_of roots)))))) ->
              nodeCount x <= nodeCount y + M).
    { apply (assign_fold_ind0 (snd (collect_roots roots))
               (fun p => default 0 (snd (collect_roots roots) !! p) <= M)
               (fun ds _ => forall x y, In x ds -> In y ds -> nodeCount x <= nodeCount y + M)).
      - intros ds done p target rest HP Hp Hperm Hmin x y Hx Hy.
        rewrite List.Forall_forall in Hmin.
        assert (Hin : forall d, In d (target :: rest) -> In d ds)
          by (intros d; apply Permutation_in, Hperm).
        assert (Ht : In target ds) by (apply Hin; left; reflexivity).
        destruct Hx as [<-|Hx], Hy as [<-|Hy]; cbn [receive nodeCount].
        + lia.
        + specialize (Hmin y (Hin y (or_intror Hy))). lia.
        + specialize (HP x target (Hin x (or_intror Hx)) Ht). lia.
        + apply HP; apply Hin; right; assumption.
      - rewrite sort_by_perm. apply Forall_forall. intros p Hp. subst M.
        apply max_list_elem_of_le, list_elem_of_In.
        apply (in_map (fun p => default 0 (snd (collect_roots roots) !! p))).
        apply list_elem_of_In, Hp.
      - apply fresh_diagrams_nonempty.
        destruct (root_paths_of roots); [contradiction | cbn [length]; lia].
      - intros x y Hx Hy.
        assert (H := fresh_diagrams_spec
                       (Z.min (Z.max 1 diagram_count) (Z.of_nat (length (root_paths_of roots))))).
        rewrite List.Forall_forall in H.
        destruct (H x Hx) as (_ & _ & ->). lia. }
    intros x y (dx & <- & Hdx)%in_map_iff (dy & <- & Hdy)%in_map_iff. apply HP; assumption.
Qed.

(** ** The diagram partitioner: membership *)

Lemma existsb_perm {A} (f : A -> bool) l l' :
  Permutation l l' -> existsb f l = existsb f l'.
Proof.
  intros Hperm. apply eq_true_iff_eq. rewrite !existsb_exists.
  split; intros (x & Hx & Hf); exists x; (split; [|exact Hf]).
  - apply (Permutation_in x Hperm Hx).
  - apply (Permutation_in x (Permutation_sym Hperm) Hx).
Qed.

Lemma existsb_concat {A} (f : A -> bool) ls :
  existsb f (concat ls) = existsb (existsb f) ls.
Proof.
  induction ls as [|l ls IH]; cbn; [reflexivity|]. rewrite existsb_app, IH. reflexivity.
Qed.

Lemma tag_member_ids gid path diagrams :
  sum_list_with (fun d => length (objectIds d)) (tag_member gid path diagrams)
  = sum_list_with (fun d => length (objectIds d)) diagrams
    + (if existsb (under_root path) (concat (map rootPaths diagrams)) then 1 else 0).
Proof.
  rewrite existsb_concat.
  induction diagrams as [|d ds IH]; cbn [tag_member map existsb sum_list_with]; [lia|].
  destruct (existsb (under_root path) (rootPaths d)); cbn [orb sum_list_with objectIds].
  - rewrite length_app. cbn. lia.
  - rewrite IH. lia.
Qed.

(** Every record with an identity whose path lies under a root path of some
    diagram adds one member, to one diagram; no other record adds any. *)
Lemma member_fold_ids objects : forall diagrams,
  sum_list_with (fun d => length (objectIds d)) (fold_left member_step objects diagrams)
  = sum_list_with (fun d => length (objectIds d)) diagrams
    + length (List.filter
                (fun e => has_identity e
                          && existsb (under_root (record_path e))
                                     (concat (map rootPaths diagrams)))
                objects).
Proof.
  induction objects as [|e objects IH]; intros ds; cbn [fold_left List.filter]; [cbn; lia|].
  rewrite IH.
  change (member_step ds e) with (fold_left member_step [e] ds) at 2.
  rewrite member_fold_roots.
  unfold member_step, has_identity, record_path.
  destruct (PyStr.truthy (globalId (entry_obj e))); cbn [andb].
  - rewrite tag_member_ids.
    destruct (existsb _ (concat (map rootPaths ds))); cbn [length]; lia.
  - lia.
Qed.

Lemma build_diagrams_members (objects : list entry) (roots : list tree)
    (diagram_count : Z) :
  sum_list_with (fun d => length (objectIds d))
                (_build_diagrams objects roots diagram_count)
  = length (List.filter
              (fun e => has_identity e
                        && existsb (under_root (record_path e)) (root_paths_of roots))
              objects).
Proof.
  destruct (build_diagrams_cases objects roots diagram_count) as [[Hnil ->]|[Hne Heq]].
  - rewrite Hnil. cbn [existsb].
    replace (List.filter _ objects) with (@nil entry).
    + assert (H := fresh_diagrams_spec (Z.max 1 diagram_count)).
      induction H as [|d ds (_ & Hd & _) _ IH]; cbn; [reflexivity|]. rewrite Hd, IH. reflexivity.
    + symmetry. induction objects as [|e objects IH]; cbn; [reflexivity|].
      rewrite andb_false_r. exact IH.
  - assert (Hperm : Permutation
              (concat (map rootPaths
                 (fold_left (assign_root (snd (collect_roots roots)))
                    (sort_by (root_le (snd (collect_roots roots))) (root_paths_of roots))
                    (fresh_diagrams
                       (Z.min (Z.max 1 diagram_count)
                              (Z.of_nat (length (root_paths_of roots))))))))
              (root_paths_of roots)).
    { rewrite assigned_roots_partition; [apply sort_by_perm|].
      destruct (root_paths_of roots); [contradiction | cbn [length]; lia]. }
    rewrite Heq, member_fold_ids.
    rewrite (List.filter_ext _
               (fun e => has_identity e
                         && existsb (under_root (record_path e)) (root_paths_of roots)))
      by (intros e; rewrite (existsb_perm _ _ _ Hperm); reflexivity).
    destruct (assigned_diagrams_spec (snd (collect_roots roots)) (root_paths_of roots)
                (Z.min (Z.max 1 diagram_count) (Z.of_nat (length (root_paths_of roots))))
                (root_paths_of_nonempty roots)) as [_ Hids].
    replace (sum_list_with _ (fold_left (assign_root _) _ _)) with 0; [reflexivity|].
    symmetry. clear -Hids.
    induction Hids as [|d ds Hd _ IH]; cbn; [reflexivity|]. rewrite Hd, IH. reflexivity.
Qed.

(** X13: the member lists of the diagrams hold, in total, one entry for every
    record that has an identity and whose path is a root path or continues
    a root path after a separator, and no other entry. *)
Theorem X13_build_diagrams_members (objects : list entry) (roots : list tree)
    (diagram_count : Z) :
  sum_list_with (fun d => length (objectIds d))
                (_build_diagrams objects roots diagram_count)
  = length (List.filter
              (fun e => has_identity e
                        && existsb (under_root (record_path e)) (root_paths_of roots))
              objects).
Proof. apply build_diagrams_members. Qed.

Lemma under_root_child q p r :
  child_of q p = true -> under_root q r = true -> under_root p r = true.
Proof.
  intros (seg & -> & _)%child_of_spec. unfold under_root, PyStr.startswith.
  intros [->%String.eqb_eq|Hpre]%orb_true_iff; apply orb_true_iff; right.
  - rewrite <- string_app_assoc. apply prefix_app.
  - apply prefix_app_r, Hpre.
Qed.

(** Every key lies under a key that has no parent among the keys. *)
Lemma root_ancestor (keys : list string) n : forall p,
  String.length p <= n -> In p keys ->
  existsb (under_root p) (List.filter (fun r => negb (has_parent keys r)) keys) = true.
Proof.
  induction n as [|n IH]; intros p Hlen Hp.
  - destruct (has_parent keys p) eqn:Hpar.
    + apply has_parent_spec in Hpar as [Hslash _].
      apply rsplit_head_shorter in Hslash. lia.
    + apply existsb_exists. exists p. split.
      * apply filter_In. rewrite Hpar. auto.
      * unfold under_root. rewrite String.eqb_refl. reflexivity.
  - destruct (has_parent keys p) eqn:Hpar.
    + apply has_parent_spec in Hpar as [Hslash Hq].
      assert (Hshort := rsplit_head_shorter p Hslash).
      specialize (IH (PyStr.rsplit_head slash p) ltac:(lia) Hq).
      apply existsb_exists in IH as (r & Hr & Hunder).
      apply existsb_exists. exists r. split; [exact Hr|].
      apply (under_root_child (PyStr.rsplit_head slash p)); [|exact Hunder].
      unfold child_of. rewrite Hslash, String.eqb_refl. reflexivity.
    + apply existsb_exists. exists p. split.
      * apply filter_In. rewrite Hpar. auto.
      * unfold under_root. rewrite String.eqb_refl. reflexivity.
Qed.

(** The root paths the partitioner sees in the orchestration: the keys
    without a parent among the keys, in some order. *)
Lemma orchestrated_root_paths objects :
  exists (heap : list (string * hnode)) roots nodes,
    _build_tree objects = Some (roots, nodes)
    /\ (forall k, In k (ODict.keys heap) <-> In k (record_paths objects))
    /\ Permutation
         (root_paths_of (OrchestrateMapping._sort_tree roots))
         (List.filter (fun p => negb (has_parent (ODict.keys heap) p)) (ODict.keys heap)).
Proof.
  destruct (build_tree_store objects)
    as (heap & roots & nodes & Hb & Hnd & Hkeys & _ & Hroots).
  exists heap, roots, nodes. split; [exact Hb|]. split; [exact Hkeys|].
  assert (Hpaths : Forall2 (fun q t => path_of (n_object (info_of t)) = Some q)
                     (List.filter (fun p => negb (has_parent (ODict.keys heap) p))
                                  (ODict.keys heap)) roots).
  { eapply Forall2_impl_In; [exact Hroots|]. intros q t [Hq _]%filter_In [_ Hp].
    apply tree_path_of; [exact Hp|]. eapply record_paths_nonempty, Hkeys, Hq. }
  unfold root_paths_of at 1.
  rewrite (sort_by_perm path_le (map sort_below roots) : Permutation
             (OrchestrateMapping._sort_tree roots) (map sort_below roots)).
  fold (root_paths_of (map sort_below roots)).
  rewrite (root_paths_of_map sort_below) by apply sort_below_info.
  rewrite (root_paths_of_keys _ _ Hpaths). reflexivity.
Qed.

Lemma record_path_of e p : path_of (entry_obj e) = Some p -> record_path e = p.
Proof.
  unfold path_of, record_path, PyStr.or_else.
  destruct (hierarchyPath (entry_obj e)) as [q|]; [|discriminate].
  destruct (String.eqb q ""); [discriminate | congruence].
Qed.

Lemma has_path_true e : has_path e = true -> exists p, path_of (entry_obj e) = Some p.
Proof.
  unfold has_path, path_of, PyStr.truthy.
  destruct (hierarchyPath (entry_obj e)) as [q|]; [|discriminate].
  destruct (String.eqb q ""); [discriminate | eauto].
Qed.

(** In the orchestration a record lies under a root path exactly when its
    path is not empty. *)
Lemma orchestrated_under_root (objects : list entry) :
  exists roots nodes,
    _build_tree objects = Some (roots, nodes)
    /\ forall e, In e objects ->
         existsb (under_root (record_path e))
                 (root_paths_of (OrchestrateMapping._sort_tree roots))
         = has_path e.
Proof.
  destruct (orchestrated_root_paths objects) as (heap & roots & nodes & Hb & Hkeys & Hperm).
  exists roots, nodes. split; [exact Hb|]. intros e He.
  destruct (has_path e) eqn:Hpath.
  - destruct (has_path_true e Hpath) as [p Hp]. rewrite (record_path_of e p Hp).
    rewrite (existsb_perm _ _ _ Hperm).
    apply (root_ancestor _ (String.length p)); [lia|].
    apply Hkeys, list_elem_of_In, list_elem_of_omap. exists e.
    split; [apply list_elem_of_In, He | exact Hp].
  - unfold record_path. rewrite (has_path_false_path e Hpath).
    apply not_true_is_false. intros (r & Hr & Hu)%existsb_exists.
    assert (Hne := root_paths_of_nonempty (OrchestrateMapping._sort_tree roots)).
    rewrite List.Forall_forall in Hne.
    rewrite under_root_empty in Hu; [discriminate | apply Hne, Hr].
Qed.

(** X14: in the orchestration, where the roots come from the tree built
    over the same records, every record that has an identity and a
    non-empty path is a member of exactly one diagram, and the member lists
    hold nothing else: their lengths add up to the number of such records. *)
Theorem X14_orchestrated_members (objects : list entry) :
  exists roots nodes,
    _build_tree objects = Some (roots, nodes)
    /\ forall diagram_count,
         sum_list_with (fun d => length (objectIds d))
           (_build_diagrams objects (OrchestrateMapping._sort_tree roots) diagram_count)
         = length (List.filter (fun e => has_identity e && has_path e) objects).
Proof.
  destruct (orchestrated_under_root objects) as (roots & nodes & Hb & Hunder).
  exists roots, nodes. split; [exact Hb|]. intros diagram_count.
  rewrite build_diagrams_members. f_equal.
  apply filter_ext_in. intros e He. f_equal. apply Hunder, He.
Qed.

(** ** The relationship deriver *)

(** What [path_to_ref] holds: under each key, the reference of a record of
    the scene whose truthy path is that key. *)
Lemma path_index_lookup objects k o :
  path_index objects !! k = Some o ->
  path_of o = Some k /\ exists e, In e objects /\ entry_obj e = o.
Proof.
  unfold path_index.
  assert (Hgen : forall m : gmap string obj,
            (forall k o, m !! k = Some o ->
                         path_of o = Some k /\ exists e, In e objects /\ entry_obj e = o) ->
            forall l, (forall e, In e l -> In e objects) ->
            forall k o,
              fold_left (fun path_to_ref e =>
                           match path_of (entry_obj e) with
                           | Some path => <[path := entry_obj e]> path_to_ref
                           | None => path_to_ref
                           end) l m !! k = Some o ->
              path_of o = Some k /\ exists e, In e objects /\ entry_obj e = o).
  { intros m Hm l. revert m Hm. induction l as [|e l IH]; intros m Hm Hl k' o'; cbn [fold_left].
    - apply Hm.
    - apply IH; [|intros e' He'; apply Hl; right; exact He'].
      intros k2 o2. destruct (path_of (entry_obj e)) as [p|] eqn:Hp; [|apply Hm].
      destruct (decide (p = k2)) as [<-|Hne].
      + rewrite lookup_insert_eq. intros [= <-]. split; [exact Hp|].
        exists e. split; [apply Hl; left; reflexivity | reflexivity].
      + rewrite lookup_insert_ne by exact Hne. apply Hm. }
  apply (Hgen ∅); [intros k' o'; rewrite lookup_empty; discriminate | auto].
Qed.

(** The loop keeps [seen] equal to the set of keys of the rows, and the keys
    of the rows pairwise different; [seen] only grows. *)
Lemma row_fold_keys path_to_ref cond objects : forall st,
  (forall k, k ∈ snd st <-> In k (map row_key (fst st))) ->
  NoDup (map row_key (fst st)) ->
  (forall k, k ∈ snd (fold_left (row_step path_to_ref cond) objects st)
             <-> In k (map row_key (fst (fold_left (row_step path_to_ref cond) objects st))))
  /\ NoDup (map row_key (fst (fold_left (row_step path_to_ref cond) objects st)))
  /\ (forall k, k ∈ snd st -> k ∈ snd (fold_left (row_step path_to_ref cond) objects st)).
Proof.
  induction objects as [|e objects IH]; intros st Hseen Hnd; cbn [fold_left]; [auto|].
  assert (Hstep : (forall k, k ∈ snd (row_step path_to_ref cond st e)
                             <-> In k (map row_key (fst (row_step path_to_ref cond st e))))
                  /\ NoDup (map row_key (fst (row_step path_to_ref cond st e)))
                  /\ (forall k, k ∈ snd st -> k ∈ snd (row_step path_to_ref cond st e))).
  { unfold row_step.
    destruct (path_of (entry_obj e)) as [child_path|]; [|auto].
    destruct (negb _ || negb _); [auto|].
    destruct (path_to_ref !! _) as [parent|]; [|auto].
    destruct (negb _); [auto|].
    destruct (decide _) as [Hin|Hnotin]; [auto|]. cbn [fst snd].
    rewrite map_app. cbn [map]. split; [|split].
    - intros k. rewrite elem_of_union, elem_of_singleton, in_app_iff, Hseen.
      split.
      + intros [->|H]; [right; left; reflexivity | left; exact H].
      + intros [H|[<-|[]]]; [right; exact H | left; reflexivity].
    - apply NoDup_app. split; [exact Hnd|]. split; [|apply NoDup_singleton].
      intros k Hk [<-|[]]%list_elem_of_In. apply Hnotin.
      apply Hseen, list_elem_of_In, Hk.
    - intros k Hk. apply elem_of_union. right. exact Hk. }
  destruct Hstep as (Hseen' & Hnd' & Hgrow).
  destruct (IH _ Hseen' Hnd') as (H1 & H2 & H3).
  split; [exact H1|]. split; [exact H2|]. intros k Hk. apply H3, Hgrow, Hk.
Qed.

(** X15: the rows are deduplicated: no two rows have the same key
    [parent_id|part_of|child_id]. *)
Theorem X15_hierarchy_rows_deduplicated (objects : list entry) (cond : string) :
  NoDup (map row_key (_build_hierarchy_rows objects cond)).
Proof.
  unfold _build_hierarchy_rows.
  apply (row_fold_keys (path_index objects) cond objects ([], ∅)).
  - intros k. cbn. split; [intros H; inversion H | tauto].
  - constructor.
Qed.

(** After a record whose edge is allowed has been processed, its key is in
    [seen]. *)
Lemma row_fold_complete path_to_ref cond objects : forall st e parent,
  (forall k, k ∈ snd st <-> In k (map row_key (fst st))) ->
  NoDup (map row_key (fst st)) ->
  In e objects ->
  PyStr.truthy (globalId (entry_obj e)) = true ->
  (exists p, path_of (entry_obj e) = Some p /\ PyStr.contains slash p = true
             /\ path_to_ref !! PyStr.rsplit_head slash p = Some parent) ->
  PyStr.truthy (globalId parent) = true ->
  edge_key parent (entry_obj e)
    ∈ snd (fold_left (row_step path_to_ref cond) objects st).
Proof.
  induction objects as [|x objects IH]; intros st e parent Hseen Hnd He Hid Hpar Hpid;
    [destruct He|]. destruct He as [<-|He].
  - cbn [fold_left].
    destruct (row_fold_keys path_to_ref cond [x] st Hseen Hnd) as (Hseen' & Hnd' & _).
    cbn [fold_left] in Hseen', Hnd'.
    apply (row_fold_keys path_to_ref cond objects _ Hseen' Hnd').
    destruct Hpar as (p & Hp & Hslash & Hlook).
    unfold row_step. rewrite Hp, Hslash, Hid, Hlook, Hpid. cbn [negb orb].
    destruct (decide _) as [Hin|Hnotin]; [exact Hin|].
    cbn [snd]. apply elem_of_union. left. apply elem_of_singleton. reflexivity.
  - cbn [fold_left].
    destruct (row_fold_keys path_to_ref cond [x] st Hseen Hnd) as (Hseen' & Hnd' & _).
    cbn [fold_left] in Hseen', Hnd'.
    apply IH; assumption.
Qed.

(** X16: a record with an identity whose parent record exists and has an
    identity is covered: the rows contain a row with the key of its edge. *)
Theorem X16_hierarchy_rows_complete (objects : list entry) (cond : string) :
  Forall (fun e =>
            edge_allowed objects (entry_obj e) = false
            \/ exists parent,
                 parent_ref objects (entry_obj e) = Some parent
                 /\ In (edge_key parent (entry_obj e))
                       (map row_key (_build_hierarchy_rows objects cond)))
         objects.
Proof.
  apply List.Forall_forall. intros e He.
  destruct (edge_allowed objects (entry_obj e)) eqn:Hallowed; [right | left; reflexivity].
  unfold edge_allowed in Hallowed. apply andb_true_iff in Hallowed as [Hid Hpar].
  destruct (parent_ref objects (entry_obj e)) as [parent|] eqn:Href; [|discriminate].
  exists parent. split; [reflexivity|].
  unfold _build_hierarchy_rows.
  destruct (row_fold_keys (path_index objects) cond objects ([], ∅)) as (Hseen & _).
  { intros k. cbn. split; [intros H; inversion H | tauto]. }
  { constructor. }
  apply Hseen.
  apply row_fold_complete; try assumption.
  - intros k. cbn. split; [intros H; inversion H | tauto].
  - constructor.
  - unfold parent_ref in Href. destruct (path_of (entry_obj e)) as [p|]; [|discriminate].
    destruct (PyStr.contains slash p) eqn:Hslash; [|discriminate]. eauto.
Qed.

Lemma row_step_invariant_in path_to_ref cond (all : list entry) (P : row -> Prop) :
  (forall e parent child_path,
      In e all ->
      path_of (entry_obj e) = Some child_path ->
      PyStr.contains slash child_path = true ->
      path_to_ref !! PyStr.rsplit_head slash child_path = Some parent ->
      P (mk_row parent "part_of" (entry_obj e) "1.0" [] "Scene" cond)) ->
  forall objects st,
    (forall e, In e objects -> In e all) ->
    Forall P (fst st) ->
    Forall P (fst (fold_left (row_step path_to_ref cond) objects st)).
Proof.
  intros HP. induction objects as [|e objects IH]; intros st Hall Hst; [exact Hst|].
  cbn [fold_left]. apply IH; [intros e' He'; apply Hall; right; exact He'|].
  unfold row_step.
  destruct (path_of (entry_obj e)) as [child_path|] eqn:Hpath; [|exact Hst].
  destruct (PyStr.contains slash child_path) eqn:Hslash; cbn [negb orb]; [|exact Hst].
  destruct (negb _); [exact Hst|].
  destruct (path_to_ref !! PyStr.rsplit_head slash child_path) as [parent|] eqn:Hpar;
    [|exact Hst].
  destruct (negb _); [exact Hst|].
  destruct (decide _); [exact Hst|]. cbn [fst].
  apply Forall_app. split; [exact Hst|]. constructor; [|constructor].
  eapply HP; try eassumption. apply Hall. left. reflexivity.
Qed.

(** X17: every row follows the paths: its object and its subject are
    references of records of the scene, the object's path has a separator,
    and the subject's path is the object's path cut before its last
    separator. *)
Theorem X17_hierarchy_rows_follow_paths (objects : list entry) (cond : string) :
  Forall (fun r =>
            exists child_path,
              path_of (row_object r) = Some child_path
              /\ PyStr.contains slash child_path = true
              /\ path_of (subject r) = Some (PyStr.rsplit_head slash child_path)
              /\ (exists e, In e objects /\ entry_obj e = row_object r)
              /\ (exists e, In e objects /\ entry_obj e = subject r))
         (_build_hierarchy_rows objects cond).
Proof.
  unfold _build_hierarchy_rows.
  apply (row_step_invariant_in (path_index objects) cond objects); [|auto|constructor].
  intros e parent child_path He Hpath Hslash Hpar. cbn [row_object subject].
  destruct (path_index_lookup objects _ _ Hpar) as [Hppath Hpe].
  exists child_path. repeat split; eauto.
Qed.

(** ** The grouping aggregator *)

Lemma hits_empty `{Countable K} (k : K) : hits (∅ : gmap K nat) k = 0.
Proof. unfold hits. rewrite lookup_empty. reflexivity. Qed.

Lemma sum_indicator {A} (P : A -> Prop) `{forall x, Decision (P x)} (b : A -> bool) l :
  (forall x, b x = true <-> P x) ->
  sum_list_with (fun x => if decide (P x) then 1 else 0) l = length (List.filter b l).
Proof.
  intros Hb. induction l as [|x l IH]; cbn; [reflexivity|]. rewrite IH.
  destruct (decide (P x)) as [HP|HP], (b x) eqn:Hbx; cbn; try reflexivity.
  - apply Hb in HP. congruence.
  - apply Hb in Hbx. contradiction.
Qed.

(** X18: the tag, layer, prefab and depth tables count records: under every
    key they hold the number of records with that tag (or [Untagged]), that
    layer (or ["0"]), that non-empty prefab path, that number of separators
    in the path (0 without a path); an absent key stands for 0. *)
Theorem X18_count_lenses_buckets (objects : list entry) :
  (forall k, hits (tag_counts (count_lenses objects)) k
             = length (List.filter (fun e => String.eqb (tag_key e) k) objects))
  /\ (forall k, hits (layer_counts (count_lenses objects)) k
                = length (List.filter (fun e => String.eqb (layer_key e) k) objects))
  /\ (forall k, hits (prefab_counts (count_lenses objects)) k
                = length (List.filter
                            (fun e => PyStr.truthy (prefabPath (entry_obj e))
                                      && String.eqb (default "" (prefabPath (entry_obj e))) k)
                            objects))
  /\ (forall k, hits (depth_counts (count_lenses objects)) k
                = length (List.filter (fun e => depth_of e =? k) objects)).
Proof.
  unfold count_lenses. repeat split; intros k.
  - rewrite (fold_hits tag_counts (fun e k => if decide (tag_key e = k) then 1 else 0))
      by (intros; apply lens_step_hits).
    cbn [tag_counts empty_tables]. rewrite hits_empty. cbn [Nat.add].
    apply sum_indicator. intros e. apply String.eqb_eq.
  - rewrite (fold_hits layer_counts (fun e k => if decide (layer_key e = k) then 1 else 0))
      by (intros; apply lens_step_hits).
    cbn [layer_counts empty_tables]. rewrite hits_empty. cbn [Nat.add].
    apply sum_indicator. intros e. apply String.eqb_eq.
  - rewrite (fold_hits prefab_counts
               (fun e k => if decide (PyStr.truthy (prefabPath (entry_obj e)) = true
                                      /\ prefabPath (entry_obj e) = Some k)
                           then 1 else 0))
      by (intros; apply lens_step_hits).
    cbn [prefab_counts empty_tables]. rewrite hits_empty. cbn [Nat.add].
    apply sum_indicator. intros e. rewrite andb_true_iff, String.eqb_eq.
    unfold PyStr.truthy. destruct (prefabPath (entry_obj e)) as [p|]; cbn.
    + split; [intros [? ->]; auto | intros [? [= ->]]; auto].
    + split; intros [[=] _].
  - rewrite (fold_hits depth_counts (fun e k => if decide (depth_of e = k) then 1 else 0))
      by (intros; apply lens_step_hits).
    cbn [depth_counts empty_tables]. rewrite hits_empty. cbn [Nat.add].
    apply sum_indicator. intros e. apply Nat.eqb_eq.
Qed.

(** X19: the component table counts, under every non-empty name, the records
    that have a non-empty component name normalising to it, each record
    once however often the name occurs; the empty name is never a key. *)
Theorem X19_count_lenses_components (objects : list entry) :
  (forall k, hits (component_counts (count_lenses objects)) k
             = if String.eqb k "" then 0
               else length (List.filter
                              (fun e => bool_decide (k ∈ normalized_components e)) objects))
  /\ (forall e k,
        k ∈ normalized_components e <->
        exists name, In name (default [] (componentTypeNames e))
                     /\ name <> "" /\ _normalize_component_name name = k).
Proof.
  split.
  - intros k. unfold count_lenses.
    rewrite (fold_hits component_counts
               (fun e k => if decide (k ∈ normalized_components e /\ k <> "") then 1 else 0))
      by (intros; apply lens_step_hits).
    cbn [component_counts empty_tables]. rewrite hits_empty. cbn [Nat.add].
    destruct (String.eqb_spec k "") as [->|Hne].
    + induction objects as [|e objects IH]; cbn; [reflexivity|]. rewrite IH.
      destruct (decide _) as [[_ []]|_]; reflexivity.
    + apply sum_indicator. intros e. rewrite bool_decide_eq_true. tauto.
  - intros e k. unfold normalized_components.
    rewrite elem_of_list_to_set, list_elem_of_In, in_map_iff.
    split; intros (name & H1 & H2); exists name.
    + apply filter_In in H2 as [Hin Hne]. apply negb_true_iff in Hne.
      split; [exact Hin|]. split; [|exact H1].
      intros ->. discriminate.
    + destruct H2 as [Hne Hnorm]. split; [exact Hnorm|].
      apply filter_In. split; [exact H1|]. apply negb_true_iff.
      destruct (String.eqb_spec name ""); [contradiction | reflexivity].
Qed.

Lemma sum_snd_perm {K} (l l' : list (K * nat)) :
  Permutation l l' -> sum_list (snd <$> l) = sum_list (snd <$> l').
Proof.
  induction 1 as [|x l l' _ IH|x y l|l1 l2 l3 _ IH1 _ IH2]; cbn; try lia.
Qed.

Lemma table_total_bump `{Countable K} (k : K) (d : gmap K nat) :
  table_total (bump k d) = table_total d + 1.
Proof.
  unfold table_total, bump. destruct (d !! k) as [old|] eqn:Hk; cbn [default].
  - rewrite <- (insert_delete_eq d k (old + 1)).
    rewrite (sum_snd_perm _ _ (map_to_list_insert (delete k d) k (old + 1)
                                 (lookup_delete_eq d k))).
    rewrite <- (insert_delete_id d k old Hk) at 2.
    rewrite (sum_snd_perm _ _ (map_to_list_insert (delete k d) k old
                                 (lookup_delete_eq d k))).
    cbn. lia.
  - rewrite (sum_snd_perm _ _ (map_to_list_insert d k 1 Hk)). cbn. lia.
Qed.

Lemma depth_fold_total objects : forall t,
  table_total (depth_counts (fold_left lens_step objects t))
  = table_total (depth_counts t) + length objects.
Proof.
  induction objects as [|e objects IH]; intros t; cbn [fold_left length]; [lia|].
  rewrite IH. cbn [lens_step depth_counts]. rewrite table_total_bump. lia.
Qed.

Lemma depth_fold_positive objects : forall t,
  (forall k v, depth_counts t !! k = Some v -> 0 < v) ->
  forall k v, depth_counts (fold_left lens_step objects t) !! k = Some v -> 0 < v.
Proof.
  induction objects as [|e objects IH]; intros t Ht; cbn [fold_left]; [exact Ht|].
  apply IH. intros k v. cbn [lens_step depth_counts]. unfold bump.
  destruct (decide (depth_of e = k)) as [<-|Hne].
  - rewrite lookup_insert_eq. intros [= <-]. lia.
  - rewrite lookup_insert_ne by exact Hne. apply Ht.
Qed.

Lemma depth_le_total (a b : nat * nat) :
  (fst a <? fst b) || ((fst a =? fst b) && (snd a <=? snd b)) = true
  \/ (fst b <? fst a) || ((fst b =? fst a) && (snd b <=? snd a)) = true.
Proof.
  destruct (Nat.ltb_spec (fst a) (fst b)); [left; reflexivity|].
  destruct (Nat.ltb_spec (fst b) (fst a)); [right; reflexivity|].
  assert (Heq : fst a = fst b) by lia. rewrite Heq, Nat.eqb_refl. cbn.
  destruct (Nat.leb_spec (snd a) (snd b)); [left; reflexivity|].
  right. apply Nat.leb_le. lia.
Qed.

(** A list sorted by key then value whose keys are pairwise different is
    strictly ascending in the keys. *)
Lemma sorted_distinct_keys (l : list (nat * nat)) :
  Sorted (fun a b => (fst a <? fst b) || ((fst a =? fst b) && (snd a <=? snd b)) = true) l ->
  NoDup (map fst l) ->
  Sorted (fun a b => fst a < fst b) l.
Proof.
  induction 1 as [|x l _ IH Hhd]; intros Hnd; [constructor|].
  cbn [map] in Hnd. apply NoDup_cons in Hnd as [Hx Hnd].
  constructor; [apply IH, Hnd|].
  destruct Hhd as [|y l' Hxy]; constructor.
  apply orb_true_iff in Hxy as [Hlt%Nat.ltb_lt|[Heq%Nat.eqb_eq _]%andb_true_iff];
    [exact Hlt|].
  exfalso. apply Hx. cbn [map]. rewrite Heq. left.
Qed.

(** X20: the rendered depth histogram lists the depths that occur among the
    records, in strictly ascending order, each with the number of records
    at that depth; no depth that occurs is missing, and the counts add up
    to the number of records. *)
Theorem X20_depth_histogram (objects : list entry) (roots : list tree) :
  Sorted (fun a b => fst a < fst b)
         (gl_depthHistogram (_build_grouping_lenses objects roots))
  /\ Forall (fun kv => 0 < snd kv
                       /\ snd kv = length (List.filter (fun e => depth_of e =? fst kv) objects))
            (gl_depthHistogram (_build_grouping_lenses objects roots))
  /\ Forall (fun e => In (depth_of e)
                         (map fst (gl_depthHistogram (_build_grouping_lenses objects roots))))
            objects
  /\ sum_list (map snd (gl_depthHistogram (_build_grouping_lenses objects roots)))
     = length objects.
Proof.
  cbn [_build_grouping_lenses gl_depthHistogram].
  set (le := fun a b : nat * nat =>
               (fst a <? fst b) || ((fst a =? fst b) && (snd a <=? snd b))).
  set (m := depth_counts (count_lenses objects)).
  assert (Hperm : Permutation (sort_by le (map_to_list m)) (map_to_list m))
    by apply sort_by_perm.
  assert (Hcount : forall k, hits m k = length (List.filter (fun e => depth_of e =? k) objects)).
  { intros k. subst m. unfold count_lenses.
    rewrite (fold_hits depth_counts (fun e k => if decide (depth_of e = k) then 1 else 0))
      by (intros; apply lens_step_hits).
    cbn [depth_counts empty_tables]. rewrite hits_empty. cbn [Nat.add].
    apply sum_indicator. intros e. apply Nat.eqb_eq. }
  assert (Hin : forall k v, In (k, v) (sort_by le (map_to_list m)) <-> m !! k = Some v).
  { intros k v. rewrite <- elem_of_map_to_list, <- list_elem_of_In.
    split; intros H; [rewrite <- Hperm | rewrite Hperm]; exact H. }
  split; [|split; [|split]].
  - apply sorted_distinct_keys; [apply sort_by_sorted, depth_le_total|].
    rewrite Hperm. apply NoDup_fst_map_to_list.
  - apply List.Forall_forall. intros [k v] Hkv. cbn [fst snd].
    apply Hin in Hkv. split.
    + apply (depth_fold_positive objects empty_tables) with (k := k); [|exact Hkv].
      intros k' v'. cbn. rewrite lookup_empty. discriminate.
    + rewrite <- Hcount. unfold hits. rewrite Hkv. reflexivity.
  - apply List.Forall_forall. intros e He.
    assert (Hpos : 0 < hits m (depth_of e)).
    { rewrite Hcount.
      assert (Hf : In e (List.filter (fun e' => depth_of e' =? depth_of e) objects))
        by (apply filter_In; split; [exact He | apply Nat.eqb_refl]).
      destruct (List.filter _ objects); [destruct Hf | cbn; lia]. }
    unfold hits in Hpos. destruct (m !! depth_of e) as [v|] eqn:Hv; [|cbn in Hpos; lia].
    apply in_map_iff. exists (depth_of e, v). split; [reflexivity | apply Hin, Hv].
  - change (sum_list (snd <$> sort_by le (map_to_list m)) = length objects).
    rewrite (sum_snd_perm _ _ Hperm).
    change (table_total m = length objects). subst m. unfold count_lenses.
    rewrite depth_fold_total. cbn [depth_counts empty_tables].
    unfold table_total. rewrite map_to_list_empty. reflexivity.
Qed.

Lemma desc_count_le_total c1 s1 c2 s2 :
  desc_count_le c1 s1 c2 s2 = true \/ desc_count_le c2 s2 c1 s1 = true.
Proof.
  unfold desc_count_le.
  destruct (Nat.ltb_spec c2 c1); [left; reflexivity|].
  destruct (Nat.ltb_spec c1 c2); [right; reflexivity|].
  assert (Heq : c1 = c2) by lia. rewrite Heq, Nat.eqb_refl. cbn.
  apply String.leb_total.
Qed.

Lemma desc_count_le_count c1 s1 c2 s2 : desc_count_le c1 s1 c2 s2 = true -> c2 <= c1.
Proof.
  unfold desc_count_le.
  intros [H%Nat.ltb_lt|[H%Nat.eqb_eq _]%andb_true_iff]%orb_true_iff; lia.
Qed.

Lemma Sorted_take {A} (R : A -> A -> Prop) l : forall n,
  Sorted R l -> Sorted R (take n l).
Proof.
  induction l as [|x l IH]; intros [|n] Hs; cbn; try constructor.
  - apply IH. inversion Hs; assumption.
  - inversion Hs as [|? ? _ Hhd]; subst. destruct Hhd; destruct n; constructor. assumption.
Qed.

Lemma StronglySorted_app_inv {A} (R : A -> A -> Prop) l1 l2 :
  StronglySorted R (l1 ++ l2) -> forall x y, In x l1 -> In y l2 -> R x y.
Proof.
  induction l1 as [|a l1 IH]; intros Hs x y Hx Hy; [destruct Hx|].
  cbn in Hs. apply StronglySorted_inv in Hs as [Hs Hall].
  destruct Hx as [<-|Hx]; [|apply IH; assumption].
  rewrite List.Forall_forall in Hall. apply Hall, in_or_app. right. exact Hy.
Qed.

(** X21: [top_counts] returns [min(limit, number of keys)] entries of the
    table, with pairwise different keys, ordered by descending count and
    then ascending key; every entry it leaves out has a count that is not
    above the count of any entry it returns. *)
Theorem X21_top_counts (source : gmap string nat) (limit : nat) :
  length (top_counts source limit) = Nat.min limit (size source)
  /\ Forall (fun kv => source !! fst kv = Some (snd kv)) (top_counts source limit)
  /\ NoDup (map fst (top_counts source limit))
  /\ Sorted (fun a b => desc_count_le (snd a) (fst a) (snd b) (fst b) = true)
            (top_counts source limit)
  /\ Forall (fun kv =>
               Forall (fun kv' => In kv' (top_counts source limit) \/ snd kv' <= snd kv)
                      (map_to_list source))
            (top_counts source limit).
Proof.
  unfold top_counts.
  set (le := fun a b : string * nat => desc_count_le (snd a) (fst a) (snd b) (fst b)).
  assert (Hperm : Permutation (sort_by le (map_to_list source)) (map_to_list source))
    by apply sort_by_perm.
  assert (Hsorted : Sorted (fun a b => le a b = true) (sort_by le (map_to_list source))).
  { apply sort_by_sorted. intros a b. apply desc_count_le_total. }
  assert (Hsub : forall kv, In kv (take limit (sort_by le (map_to_list source))) ->
                            In kv (map_to_list source)).
  { intros kv Hkv. apply (Permutation_in kv Hperm).
    rewrite <- (take_drop limit (sort_by le (map_to_list source))).
    apply in_or_app. left. exact Hkv. }
  split; [|split; [|split; [|split]]].
  - rewrite length_take, sort_by_length, length_map_to_list. reflexivity.
  - apply List.Forall_forall. intros [k v] Hkv%Hsub%list_elem_of_In.
    apply elem_of_map_to_list, Hkv.
  - apply (sublist_NoDup _ (map fst (sort_by le (map_to_list source)))).
    + rewrite Hperm. apply NoDup_fst_map_to_list.
    + apply (fmap_sublist fst), sublist_take.
  - apply Sorted_take, Hsorted.
  - apply (Sorted_weaken _ (fun a b => snd b <= snd a)) in Hsorted;
      [|intros a b; apply desc_count_le_count].
    apply Sorted_StronglySorted in Hsorted; [|intros x y z; lia].
    rewrite <- (take_drop limit (sort_by le (map_to_list source))) in Hsorted.
    apply List.Forall_forall. intros kv Hkv.
    apply List.Forall_forall. intros kv' Hkv'.
    apply (Permutation_in kv' (Permutation_sym Hperm)) in Hkv'.
    rewrite <- (take_drop limit (sort_by le (map_to_list source))) in Hkv'.
    apply in_app_or in Hkv' as [Hin|Hout]; [left; exact Hin | right].
    apply (StronglySorted_app_inv _ _ _ Hsorted kv kv' Hkv Hout).
Qed.

(** X22: the root summary of [_build_grouping_lenses] has one entry for every
    root it is given, with the root's identity, name, path and
    [_count_subtree] size, ordered by descending size and then ascending
    path. *)
Theorem X22_root_summary (objects : list entry) (roots : list tree) :
  Permutation (gl_roots (_build_grouping_lenses objects roots)) (map root_group_of roots)
  /\ Sorted (fun a b =>
               desc_count_le (rg_subtreeSize a) (PyStr.or_else (rg_hierarchyPath a) "")
                             (rg_subtreeSize b) (PyStr.or_else (rg_hierarchyPath b) "")
               = true)
            (gl_roots (_build_grouping_lenses objects roots)).
Proof.
  cbn [_build_grouping_lenses gl_roots]. split.
  - apply sort_by_perm.
  - apply (sort_by_sorted
             (fun a b =>
                desc_count_le (rg_subtreeSize a) (PyStr.or_else (rg_hierarchyPath a) "")
                              (rg_subtreeSize b) (PyStr.or_else (rg_hierarchyPath b) ""))).
    intros a b. apply desc_count_le_total.
Qed.

(** ** The diagram planner *)

(** X23: a larger scene is never given fewer diagrams; the suggested count
    is between 1 and 4 and the target between 30 and 150 for every total,
    zero and negative totals included. *)
Theorem X23_planner_monotone (total1 total2 : Z) :
  (total1 <= total2)%Z ->
  (diagramCount (_suggest_diagram_counts total1)
   <= diagramCount (_suggest_diagram_counts total2))%Z
  /\ (1 <= diagramCount (_suggest_diagram_counts total1) <= 4)%Z
  /\ (30 <= targetNodesPerDiagram (_suggest_diagram_counts total1) <= 150)%Z.
Proof.
  intros Hle. split; [|split].
  - rewrite !planner_count_cases.
    repeat match goal with
           | |- context [(?a <=? ?b)%Z] => destruct (Z.leb_spec a b)
           end; lia.
  - apply planner_count_pos.
  - rewrite planner_target_is_clamp. unfold clamp. lia.
Qed.

Lemma X23_witness :
  (diagramCount (_suggest_diagram_counts 80)
   <= diagramCount (_suggest_diagram_counts 81))%Z
  /\ (1 <= diagramCount (_suggest_diagram_counts 80) <= 4)%Z
  /\ (30 <= targetNodesPerDiagram (_suggest_diagram_counts 80) <= 150)%Z.
Proof. apply (X23_planner_monotone 80 81). lia. Defined.

(** ** The ingestion loops *)

Section IngestionMore.

Context {World Cursor : Type}.
Variable fetch : World -> Z -> response Cursor * World.
Variable py_int : Cursor -> option Z.

Lemma with_prefix_app (a b : list entry) (r : ingestion Cursor) :
  with_prefix (a ++ b) r = with_prefix a (with_prefix b r).
Proof. destruct r; cbn; [rewrite app_assoc; reflexivity | reflexivity]. Qed.

(** X24: the pagination loop only ever appends: started with records already
    accumulated, it ends as it would have ended without them, with those
    records in front and in their order; when it ends with a failure, the
    failure is the same and no record is returned. *)
Theorem X24_ingest_loop_appends (fuel : nat) (w : World) (offset : Z)
    (objects : list entry) :
  ingest_loop fetch py_int fuel w offset objects
  = (fun rw => (with_prefix objects (fst rw), snd rw))
      <$> ingest_loop fetch py_int fuel w offset [].
Proof.
  revert w offset objects. induction fuel as [|fuel IH]; intros w offset objects;
    [reflexivity|].
  cbn [ingest_loop]. destruct (fetch w offset) as [[d|text] w']; [|reflexivity].
  destruct (success d); [|reflexivity]. cbn [app].
  destruct (next_offset_of d) as [c|]; [|reflexivity].
  destruct (py_int c) as [offset'|]; [|reflexivity].
  rewrite (IH w' offset' (objects ++ batch_of d)), (IH w' offset' (batch_of d)).
  destruct (ingest_loop fetch py_int fuel w' offset' []) as [[r w'']|]; [|reflexivity].
  cbn. rewrite with_prefix_app. reflexivity.
Qed.

(** X25: on the same pages the loop of scene_outline.py and the loop of
    orchestrate_mapping.py end after the same page, both with a failure or
    both with the same records in the same order. *)
Theorem X25_outline_loop_agrees (fuel : nat) (w : World) (offset : Z)
    (objects : list entry) :
  (fun rw => (outline_objects (fst rw), snd rw))
    <$> outline_loop fetch py_int fuel w offset objects
  = (fun rw => (ingested_objects (fst rw), snd rw))
      <$> ingest_loop fetch py_int fuel w offset objects.
Proof.
  revert w offset objects. induction fuel as [|fuel IH]; intros w offset objects;
    [reflexivity|].
  cbn [ingest_loop outline_loop]. destruct (fetch w offset) as [[d|text] w']; [|reflexivity].
  destruct (success d); [|reflexivity].
  destruct (next_offset_of d) as [c|]; [|reflexivity].
  destruct (py_int c) as [offset'|]; [|reflexivity].
  apply IH.
Qed.

End IngestionMore.

(** ** The sidecar path *)

Lemma rsplit1_keeps_prefix c p : forall s h t,
  String.prefix p s = true -> PyStr.contains c p = false ->
  PyStr.rsplit1 c s = Some (h, t) -> String.prefix p h = true.
Proof.
  induction p as [|a p IH]; intros s h t Hpre Hc Hs; [destruct h; reflexivity|].
  destruct s as [|b s]; [discriminate|]. cbn in Hpre.
  destruct (ascii_dec a b) as [<-|]; [|discriminate].
  cbn in Hc. apply orb_false_iff in Hc as [Hac Hc].
  cbn in Hs. destruct (PyStr.rsplit1 c s) as [[h' t']|] eqn:Hs'.
  - injection Hs as <- <-. cbn. destruct (ascii_dec a a); [|contradiction].
    apply (IH s h' t' Hpre Hc Hs').
  - rewrite Hac in Hs. discriminate.
Qed.

Lemma rsplit_head_app base ext :
  PyStr.contains dot ext = false ->
  PyStr.rsplit_head dot (base +:+ String dot ext) = base.
Proof.
  intros Hext. unfold PyStr.rsplit_head.
  assert (Hs : PyStr.rsplit1 dot (base +:+ String dot ext) = Some (base, ext)).
  { induction base as [|a base IH].
    - rewrite app_empty. cbn.
      destruct (PyStr.rsplit1 dot ext) as [[h t]|] eqn:Hs; [|reflexivity].
      assert (PyStr.contains dot ext = true) by (apply rsplit1_contains; eauto).
      congruence.
    - rewrite app_cons. cbn. rewrite IH. reflexivity. }
  rewrite Hs. reflexivity.
Qed.

(** X26: when [_write_diagrams_json] returns a path, the project root and
    the asset path were non-empty, the asset path and the returned path both
    start with [Assets/], and the returned path ends in [.diagrams.json];
    for an asset path [base.ext] whose [ext] has no dot it is
    [base.diagrams.json]. *)
Theorem X26_write_diagrams_json_path (project_root asset_path rel_path : string) :
  _write_diagrams_json project_root asset_path = Some rel_path ->
  project_root <> "" /\ asset_path <> ""
  /\ PyStr.startswith asset_path "Assets/" = true
  /\ PyStr.startswith rel_path "Assets/" = true
  /\ (exists rel_base, rel_path = rel_base +:+ ".diagrams.json")
  /\ (forall base ext,
        asset_path = base +:+ String dot ext -> PyStr.contains dot ext = false ->
        rel_path = base +:+ ".diagrams.json").
Proof.
  unfold _write_diagrams_json.
  destruct (String.eqb_spec project_root "") as [|Hroot]; [discriminate|].
  destruct (String.eqb_spec asset_path "") as [|Hasset]; [discriminate|]. cbn [orb].
  destruct (PyStr.startswith asset_path "Assets/") eqn:Hpre; [|discriminate]. cbn [negb].
  intros [= <-]. repeat split; try assumption.
  - unfold PyStr.startswith in *. apply prefix_app_r.
    unfold PyStr.rsplit_head.
    destruct (PyStr.rsplit1 dot asset_path) as [[h t]|] eqn:Hs; [|exact Hpre].
    apply (rsplit1_keeps_prefix dot "Assets/" asset_path h t Hpre eq_refl Hs).
  - eauto.
  - intros base ext -> Hext. rewrite rsplit_head_app by exact Hext. reflexivity.
Qed.

Lemma X26_witness :
  PyStr.startswith "Assets/MCP/Generated/StructureMappingTable.diagrams.json" "Assets/" = true.
Proof.
  apply (X26_write_diagrams_json_path "/home/user/Project" DEFAULT_ASSET_PATH
           "Assets/MCP/Generated/StructureMappingTable.diagrams.json").
  reflexivity.
Defined.

(** ** Summary counts *)

(** X27: in the summary, [inactive] is never negative, it is the number of
    records whose [activeInHierarchy] is not the value true (false, null or
    absent), and together with [activeInHierarchy] it gives [totalObjects];
    [activeSelf] cannot exceed [totalObjects]. *)
Theorem X27_summary_counts (objects : list entry) :
  inactive (summarize objects)
  = Z.of_nat (length (List.filter (fun e => negb (is_true (activeInHierarchy e))) objects))
  /\ (Z.of_nat (s_activeInHierarchy (summarize objects)) + inactive (summarize objects)
      = Z.of_nat (totalObjects (summarize objects)))%Z
  /\ s_activeSelf (summarize objects) <= totalObjects (summarize objects).
Proof.
  unfold summarize. cbn [inactive s_activeInHierarchy totalObjects s_activeSelf].
  assert (Hsplit : forall f : entry -> bool,
            length objects = length (List.filter f objects)
                             + length (List.filter (fun e => negb (f e)) objects)).
  { intros f. induction objects as [|e l IH]; cbn; [reflexivity|].
    destruct (f e); cbn; lia. }
  assert (H1 := Hsplit (fun e => is_true (activeInHierarchy e))).
  assert (H2 := Hsplit (fun e => is_true (activeSelf e))).
  cbv beta in H1, H2. split; [|split]; lia.
Qed.

(** ** The orchestration as a whole *)

(** X28: for every list of records the orchestration builds its mapping:
    the forest is in ascending path order at every level and lists every
    distinct non-empty path once; there are between one and
    [diagramCount] diagrams, [diagramCount] being at most 4; and every
    record with an identity and a non-empty path is a member of exactly one
    diagram. *)
Theorem X28_map_scene (objects : list entry) (cond : string) :
  exists m,
    map_scene objects cond = Some m
    /\ ordered_forest (m_roots m)
    /\ Permutation (forest_paths (m_roots m))
                   (map Some (remove_dups (record_paths objects)))
    /\ 1 <= length (m_diagrams m)
    /\ (Z.of_nat (length (m_diagrams m)) <= diagramCount (m_suggestion m) <= 4)%Z
    /\ sum_list_with (fun d => length (objectIds d)) (m_diagrams m)
       = length (List.filter (fun e => has_identity e && has_path e) objects)
    /\ m_rows m = _build_hierarchy_rows objects cond.
Proof.
  destruct (build_tree_keys_cover objects)
    as (heap & roots & nodes & Hb & Hnd & Hkeys & Hperm).
  destruct (orchestrated_under_root objects) as (roots' & nodes' & Hb' & Hunder).
  rewrite Hb in Hb'. injection Hb' as <- <-.
  assert (Hmembers : forall diagram_count,
             sum_list_with (fun d => length (objectIds d))
               (_build_diagrams objects (OrchestrateMapping._sort_tree roots) diagram_count)
             = length (List.filter (fun e => has_identity e && has_path e) objects)).
  { intros diagram_count. rewrite build_diagrams_members. f_equal.
    apply filter_ext_in. intros e He. f_equal. apply Hunder, He. }
  unfold map_scene. rewrite Hb. eexists. split; [reflexivity|].
  cbn [m_roots m_diagrams m_suggestion m_rows].
  set (plan := _suggest_diagram_counts (Z.of_nat (length objects))).
  assert (Hplan : (1 <= diagramCount plan <= 4)%Z) by apply planner_count_pos.
  split; [apply orchestrate_sort_tree_ordered|].
  split.
  { unfold OrchestrateMapping._sort_tree, forest_paths.
    rewrite (Permutation_flat_map tree_paths (sort_by_perm path_le (map sort_below roots))).
    rewrite flat_map_map_perm
      by (apply Forall_forall; intros t _; apply tree_paths_sort_below).
    fold (forest_paths roots). rewrite Hperm.
    apply Permutation_map, keys_remove_dups; assumption. }
  destruct (build_diagrams_titles objects (OrchestrateMapping._sort_tree roots)
              (diagramCount plan)) as [[_ Htitles]|[Hne Htitles]];
    apply Permutation_length in Htitles;
    rewrite !length_map, fresh_diagrams_length in Htitles; rewrite Htitles.
  - repeat split; try lia. apply Hmembers.
  - assert (Hroots : 1 <= length (root_paths_of (OrchestrateMapping._sort_tree roots))).
    { destruct (root_paths_of _); [contradiction | cbn; lia]. }
    repeat split; try lia. apply Hmembers.
Qed.
